(** * repuragent_demo: conversation display and session bootstrap

  A shallow embedding of [src/app/ui/components.py] and [src/app.py].

  - Python text ([str]) is a list of Unicode code points.  The whitespace
    class of [str.strip] is written out in full; [str.upper] is the
    per-code-point full case mapping, taken through the interface
    [CaseMap], whose only law is the ASCII part of the mapping.
  - [st.session_state] is a finite map from field names to Python values.
  - The collaborators imported from [backend.*] and [core.*] are not part
    of the sources; they are the fields of a [backend] record.
  - A script run is a computation in a state-and-exception monad over the
    session and the collaborators' state, with a log of the collaborator
    calls and of the widgets drawn. *)

From Stdlib Require Import NArith Ascii String List Permutation.
From stdpp Require Import gmap strings list fin_maps pretty.

Set Warnings "-register-all".

Local Open Scope N_scope.

(** ** Python text *)

Module PyStr.

(** A Python [str]: a sequence of code points. *)
Abbreviation str := (list N).

(** A literal of the sources, written as a Rocq string of ASCII
    characters. *)
Definition lit (s : string) : str :=
  map N_of_ascii (list_ascii_of_string s).

Definition NL : N := 10.

(** [s.startswith(p)] *)
Fixpoint startswith (s p : str) : bool :=
  match p, s with
  | [], _ => true
  | _ :: _, [] => false
  | c :: p', d :: s' => (c =? d) && startswith s' p'
  end.

(** [s.endswith(p)] *)
Definition endswith (s p : str) : bool := startswith (rev s) (rev p).

(** [p in s] *)
Fixpoint contains (s p : str) : bool :=
  startswith s p ||
  match s with
  | [] => false
  | _ :: s' => contains s' p
  end.

(** [s.split('\n')]: one more element than there are newlines. *)
Fixpoint split_nl (s : str) : list str :=
  match s with
  | [] => [[]]
  | c :: s' =>
      if c =? NL then [] :: split_nl s'
      else match split_nl s' with
           | l :: ls => (c :: l) :: ls
           | [] => [[c]]
           end
  end.

(** The code points [str.strip()] removes: CPython's
    [_Py_ascii_whitespace] below 128 and [_PyUnicode_IsWhitespace]
    above. *)
Definition is_space (c : N) : bool :=
  ((9 <=? c) && (c <=? 13)) || ((28 <=? c) && (c <=? 32))
  || (c =? 133) || (c =? 160) || (c =? 5760)
  || ((8192 <=? c) && (c <=? 8202))
  || (c =? 8232) || (c =? 8233) || (c =? 8239) || (c =? 8287)
  || (c =? 12288).

Fixpoint lstrip (s : str) : str :=
  match s with
  | c :: s' => if is_space c then lstrip s' else s
  | [] => []
  end.

Definition rstrip (s : str) : str := rev (lstrip (rev s)).

(** [s.strip()] *)
Definition strip (s : str) : str := rstrip (lstrip s).

(** Truth value of a [str]: non-empty. *)
Definition nonempty (s : str) : bool :=
  match s with [] => false | _ :: _ => true end.

(** Every line followed by a newline, as the loop of
    [display_chat_messages] builds its buffers. *)
Definition unlines (ls : list str) : str :=
  flat_map (fun l => l ++ [NL]) ls.

(** ["\n".join(ls)] *)
Fixpoint join_nl (ls : list str) : str :=
  match ls with
  | [] => []
  | [l] => l
  | l :: ls' => l ++ NL :: join_nl ls'
  end.

(** The lines of a buffer in which every line is followed by a newline:
    [t.split('\n')[:-1]]. *)
Definition buffer_lines (t : str) : list str := removelast (split_nl t).

(** Text of code points below 128. *)
Definition is_ascii (s : str) : bool := forallb (fun c => c <? 128) s.

(** The ASCII part of [str.upper]: a-z to A-Z. *)
Definition ascii_upper (c : N) : N :=
  if (97 <=? c) && (c <=? 122) then c - 32 else c.

(** Full upper-case mapping of one code point (it may give several:
    U+00DF gives "SS").  Only its ASCII part is fixed here. *)
Class CaseMap := {
  to_upper : N -> str;
  to_upper_ascii : forall c, c < 128 -> to_upper c = [ascii_upper c]
}.

(** [s.upper()] *)
Definition upper `{CaseMap} (s : str) : str := flat_map to_upper s.

(** The case mapping that leaves everything outside ASCII alone; it is
    [str.upper] on ASCII text. *)
#[export] Instance ascii_case : CaseMap | 100 :=
  {| to_upper := fun c => [ascii_upper c];
     to_upper_ascii := fun c _ => eq_refl |}.

End PyStr.
Import PyStr.

(** ** [display_chat_messages] (components.py) *)

Module Segmenter.

Inductive section := progress | final.

(** The two vocabularies of the source. *)
Definition PROGRESS_AGENTS : list str :=
  [lit "SUPERVISOR"; lit "RESEARCH_AGENT"; lit "DATA_AGENT";
   lit "PREDICTION_AGENT"].
Definition FINAL_AGENTS : list str :=
  [lit "PLANNING_AGENT"; lit "REPORT_AGENT"].

Definition BOLD : str := lit "**".

(** [any(agent in line_upper for agent in markers)] *)
Definition any_in (markers : list str) (line_upper : str) : bool :=
  existsb (contains line_upper) markers.

(** [line.startswith('**') and line.endswith('**')], on the line as
    [split] gave it. *)
Definition bold_delimited (line : str) : bool :=
  startswith line BOLD && endswith line BOLD.

(** A header line as the specification has it, over the test of the
    source: bold-delimited, and naming an agent of either vocabulary. *)
Definition header_line `{CaseMap} (progress_markers final_markers : list str)
  (line : str) : bool :=
  bold_delimited line
  && (any_in progress_markers (upper line)
      || any_in final_markers (upper line)).

(** The loop variables. *)
Record buffers := {
  current_section : section;
  progress_content : str;
  final_content : str
}.

Section Loop.
Context `{CaseMap}.
Variables progress_markers final_markers : list str.

(** The header test of the loop body: the section in effect after
    having looked at [line]. *)
Definition next_section (cur : section) (line : str) : section :=
  let line_upper := upper line in
  if bold_delimited line then
    if any_in progress_markers line_upper then progress
    else if any_in final_markers line_upper then final
    else cur
  else cur.

(** One iteration: the header test, then [line + '\n'] is appended to
    the buffer of the section in effect. *)
Definition step (b : buffers) (line : str) : buffers :=
  let cur := next_section (current_section b) line in
  match cur with
  | progress =>
      {| current_section := cur;
         progress_content := progress_content b ++ line ++ [NL];
         final_content := final_content b |}
  | final =>
      {| current_section := cur;
         progress_content := progress_content b;
         final_content := final_content b ++ line ++ [NL] |}
  end.

Definition init : buffers :=
  {| current_section := final; progress_content := []; final_content := [] |}.

Definition scan (b : buffers) (lines : list str) : buffers :=
  fold_left step lines b.

(** The buffers after the loop over [content.split('\n')]. *)
Definition accumulate (content : str) : buffers :=
  scan init (split_nl content).

(** What is displayed: the stripped final buffer if it is not empty,
    then the stripped progress buffer if it is not empty. *)
Definition emit (b : buffers) : list (section * str) :=
  (if nonempty (strip (final_content b))
   then [(final, strip (final_content b))] else [])
  ++
  (if nonempty (strip (progress_content b))
   then [(progress, strip (progress_content b))] else []).

Definition segment (content : str) : list (section * str) :=
  emit (accumulate content).

End Loop.

(** What [st.markdown], [st.expander] and [st.chat_message] draw. *)
Inductive widget :=
| Markdown (text : str)
| Expander (label : str) (expanded : bool) (body : list widget)
| ChatMessage (role : string) (body : list widget).

(** A chat message: [{"role": ..., "content": ...}]. *)
Record message := { role : string; content : str }.

(** The label of the expander: U+1F504, a space, "Processing Progress". *)
Definition PROGRESS_LABEL : str := [128260; 32] ++ lit "Processing Progress".

Definition draw_segment (seg : section * str) : widget :=
  match seg with
  | (final, text) => Markdown text
  | (progress, text) => Expander PROGRESS_LABEL false [Markdown text]
  end.

(** The body of [with st.chat_message(message["role"])]: an assistant
    message with content is segmented over the vocabularies of the
    source, anything else goes to [st.markdown] as it is. *)
Definition display_message `{CaseMap} (m : message) : list widget :=
  if String.eqb (role m) "assistant" && nonempty (content m) then
    map draw_segment (segment PROGRESS_AGENTS FINAL_AGENTS (content m))
  else [Markdown (content m)].

Definition display_chat_messages `{CaseMap} (messages : list message)
  : list widget :=
  map (fun m => ChatMessage (role m) (display_message m)) messages.

End Segmenter.

(** ** Session state and the script monad *)

Module Script.
Import Segmenter.

(** An entry of [st.session_state.thread_ids]:
    [{"thread_id": ..., "title": ...}]. *)
Record thread_data := { thread_id : string; title : str }.

(** The Python values the session holds.  Dictionaries come in the three
    shapes the program uses: a thread entry, a chat message, and a
    dictionary of other keys. *)
Inductive pyval :=
| VNone
| VBool (b : bool)
| VStr (s : string)
| VList (l : list pyval)
| VDict (d : list (string * pyval))
| VSet (ids : gset string)
| VThread (td : thread_data)
| VMessage (m : message)
| VObject (handle : N).

(** Truth value of a Python value, as [if v:] takes it. *)
Definition truthy (v : pyval) : bool :=
  match v with
  | VNone => false
  | VBool b => b
  | VStr s => negb (String.eqb s "")
  | VList l => match l with [] => false | _ => true end
  | VDict d => match d with [] => false | _ => true end
  | VSet ids => negb (bool_decide (ids = ∅))
  | VThread _ | VMessage _ | VObject _ => true
  end.

(** [tid == v] for a [str] on the left. *)
Definition eq_str (tid : string) (v : pyval) : bool :=
  match v with
  | VStr s => String.eqb tid s
  | _ => false
  end.

(** The buttons of the sidebar; the two of a conversation carry the keys
    [thread_<id>] and [del_<id>]. *)
Inductive button :=
| BtnExtract
| BtnNewTask
| BtnThread (tid : string)
| BtnDelete (tid : string).

#[export] Instance button_eq_dec : EqDecision button.
Proof. solve_decision. Defined.

(** What a script run can raise.  [Rerun] is Streamlit's
    [RerunException], raised by [st.rerun()]; it derives from
    [BaseException], so [except Exception] lets it through. *)
Inductive exc :=
| Exception (e : N)
| AttributeError (field : string)
| TypeError
| KeyError
| IndexError
| DuplicateWidgetID (b : button)
| Rerun.

Definition is_Exception (e : exc) : bool :=
  match e with Rerun => false | _ => true end.

(** The calls that leave the two source files. *)
Inductive call :=
| CGetOrchestrator
| CGetSystemStatus
| CLoadThreadIds
| CCreateApp (use_episodic_learning : bool)
| CLoadConversation (tid : string)
| CGetWelcomeMessage
| CCreateNewConversation
| CLogWarning
| CLogError.

(** The result of a collaborator: a value, or an exception of class
    [Exception]. *)
Inductive result (A : Type) :=
| Ok (a : A)
| Fail (e : N).
Arguments Ok {A} a.
Arguments Fail {A} e.

(** The dictionary [create_new_conversation()] returns. *)
Record new_conv := {
  nc_thread_id : string;
  nc_messages : list message;
  nc_processed_message_ids : gset string;
  nc_processed_tools_ids : gset string
}.

(** The collaborators, over their own state [W] (the thread store, the
    SQLite file).  [load_conversation] is the one whose callers rely on
    what it does to the session, so it is given the session; whatever it
    did before raising stays done. *)
Record backend (W : Type) := {
  get_orchestrator : W -> result pyval * W;
  get_system_status : W -> result unit * W;
  load_thread_ids : W -> result (list thread_data) * W;
  create_app : bool -> W -> result pyval * W;
  load_conversation :
    string -> pyval -> gmap string pyval -> W ->
    result unit * (gmap string pyval * W);
  get_welcome_message : message;
  create_new_conversation : W -> result new_conv * W
}.
Arguments get_orchestrator {W} _ _.
Arguments get_system_status {W} _ _.
Arguments load_thread_ids {W} _ _.
Arguments create_app {W} _ _ _.
Arguments load_conversation {W} _ _ _ _ _.
Arguments get_welcome_message {W} _.
Arguments create_new_conversation {W} _ _.

(** The state a run threads: the session, the collaborators' state, the
    log of calls (latest last) and the buttons drawn so far in this
    run. *)
Record state (W : Type) := State {
  session : gmap string pyval;
  world : W;
  calls : list call;
  widgets : list button
}.
Arguments State {W} _ _ _ _.
Arguments session {W} _.
Arguments world {W} _.
Arguments calls {W} _.
Arguments widgets {W} _.

Inductive outcome (A : Type) :=
| Return (a : A)
| Raise (e : exc).
Arguments Return {A} a.
Arguments Raise {A} e.

Definition M (W A : Type) : Type := state W -> outcome A * state W.

#[export] Instance M_ret {W} : MRet (M W) :=
  fun A (a : A) st => (Return a, st).

#[export] Instance M_bind {W} : MBind (M W) :=
  fun A B (k : A -> M W B) (m : M W A) st =>
    match m st with
    | (Return a, st') => k a st'
    | (Raise e, st') => (Raise e, st')
    end.

Definition raise {W A} (e : exc) : M W A := fun st => (Raise e, st).

(** [try: body except Exception as e: handler] *)
Definition try_except {W A} (body : M W A) (handler : exc -> M W A) : M W A :=
  fun st =>
    match body st with
    | (Raise e, st') =>
        if is_Exception e then handler e st' else (Raise e, st')
    | r => r
    end.

(** [try: body except: pass] *)
Definition try_pass {W} (body : M W unit) : M W unit :=
  fun st =>
    match body st with
    | (Raise e, st') => (Return tt, st')
    | r => r
    end.

Definition when {W} (c : bool) (m : M W unit) : M W unit :=
  if c then m else mret tt.

Fixpoint for_each {W A} (l : list A) (body : A -> M W unit) : M W unit :=
  match l with
  | [] => mret tt
  | x :: l' => body x;; for_each l' body
  end.

(** ['key' in st.session_state] *)
Definition has_key {W} (key : string) : M W bool :=
  fun st => (Return (bool_decide (is_Some (session st !! key))), st).

(** [st.session_state.key], an [AttributeError] when absent. *)
Definition getattr {W} (key : string) : M W pyval :=
  fun st =>
    match session st !! key with
    | Some v => (Return v, st)
    | None => (Raise (AttributeError key), st)
    end.

(** [st.session_state.key = v] *)
Definition setattr {W} (key : string) (v : pyval) : M W unit :=
  fun st =>
    (Return tt,
     State (<[key := v]> (session st)) (world st) (calls st) (widgets st)).

(** [if 'key' not in st.session_state: body] *)
Definition unless_set {W} (key : string) (body : M W unit) : M W unit :=
  present ← has_key key; when (negb present) body.

Definition log {W} (c : call) : M W unit :=
  fun st =>
    (Return tt, State (session st) (world st) (calls st ++ [c]) (widgets st)).

(** A call of a collaborator that sees only its own state. *)
Definition extern {W A} (c : call) (f : W -> result A * W) : M W A :=
  fun st =>
    let '(r, w) := f (world st) in
    let st' := State (session st) w (calls st ++ [c]) (widgets st) in
    match r with
    | Ok a => (Return a, st')
    | Fail e => (Raise (Exception e), st')
    end.

(** [st.rerun()] *)
Definition st_rerun {W} : M W unit := raise Rerun.

(** The start of a script run: no widget drawn yet. *)
Definition new_run {W} : M W unit :=
  fun st => (Return tt, State (session st) (world st) (calls st) []).

(** [v[-1]] *)
Definition last_item {W} (v : pyval) : M W pyval :=
  match v with
  | VList l =>
      match last l with
      | Some x => mret x
      | None => raise IndexError
      end
  | VStr s =>
      match last (list_ascii_of_string s) with
      | Some c => mret (VStr (String c EmptyString))
      | None => raise IndexError
      end
  | VDict _ | VThread _ | VMessage _ => raise KeyError
  | VNone | VBool _ | VSet _ | VObject _ => raise TypeError
  end.

(** [v["thread_id"]] *)
Definition thread_id_of {W} (v : pyval) : M W string :=
  match v with
  | VThread td => mret (thread_id td)
  | VDict _ | VMessage _ => raise KeyError
  | _ => raise TypeError
  end.

(** The [Message] of a value used as [message["role"]],
    [message["content"]]. *)
Definition message_of {W} (v : pyval) : M W message :=
  match v with
  | VMessage m => mret m
  | VDict _ | VThread _ => raise KeyError
  | _ => raise TypeError
  end.

(** The items a [for] loop over [v] visits ([rev] of them for
    [reversed(v)]); a string gives its characters and a dictionary its
    keys. *)
Definition items {W} (v : pyval) : M W (list pyval) :=
  match v with
  | VList l => mret l
  | VStr s =>
      mret (map (fun c => VStr (String c EmptyString)) (list_ascii_of_string s))
  | VDict d => mret (map (fun kv => VStr (fst kv)) d)
  | VThread _ => mret [VStr "thread_id"; VStr "title"]
  | VMessage _ => mret [VStr "role"; VStr "content"]
  | VSet ids => mret (map VStr (elements ids))
  | VNone | VBool _ | VObject _ => raise TypeError
  end.

(** [reversed(v)]: a set has no order to reverse. *)
Definition reversed {W} (v : pyval) : M W (list pyval) :=
  match v with
  | VSet _ => raise TypeError
  | _ => l ← items v; mret (rev l)
  end.

Fixpoint map_M {W A B} (f : A -> M W B) (l : list A) : M W (list B) :=
  match l with
  | [] => mret []
  | x :: l' => y ← f x; ys ← map_M f l'; mret (y :: ys)
  end.

End Script.

(** ** [initialize_demo_session] and [main] (app.py), the sidebar
    (components.py) *)

Module App.
Import Segmenter Script.

Section Run.
Context {W : Type} (B : backend W).

(** Lines 36-42: the import and the call are inside the [try]. *)
Definition init_orchestrator : M W unit :=
  unless_set "episodic_orchestrator"
    (try_except
       (o ← extern CGetOrchestrator (get_orchestrator B);
        setattr "episodic_orchestrator" o)
       (fun _ =>
          log CLogWarning;;
          setattr "episodic_orchestrator" VNone)).

(** Lines 44-71. *)
Definition init_compat : M W unit :=
  unless_set "thread_files" (setattr "thread_files" (VDict []));;
  unless_set "uploaded_files" (setattr "uploaded_files" (VList []));;
  unless_set "uploaded_file_path" (setattr "uploaded_file_path" VNone);;
  unless_set "uploaded_file_hash" (setattr "uploaded_file_hash" VNone);;
  unless_set "uploaded_file_name" (setattr "uploaded_file_name" VNone);;
  unless_set "use_episodic_learning"
    (setattr "use_episodic_learning" (VBool true));;
  unless_set "processed_content_hashes"
    (setattr "processed_content_hashes" (VSet ∅));;
  unless_set "expander_states"
    (setattr "expander_states"
       (VDict [("progress_expander", VBool true);
               ("show_progress_content", VBool false)])).

(** [load_thread_ids()] as a Python list of thread entries. *)
Definition call_load_thread_ids : M W pyval :=
  ids ← extern CLoadThreadIds (load_thread_ids B);
  mret (VList (map VThread ids)).

(** Lines 74-75. *)
Definition init_thread_ids : M W unit :=
  unless_set "thread_ids"
    (ids ← call_load_thread_ids; setattr "thread_ids" ids).

(** [load_conversation(thread_id, app)]: the collaborator works on the
    session. *)
Definition call_load_conversation (tid : string) (app : pyval) : M W unit :=
  fun st =>
    let '(r, (s, w)) := load_conversation B tid app (session st) (world st) in
    let st' := State s w (calls st ++ [CLoadConversation tid]) (widgets st) in
    match r with
    | Ok _ => (Return tt, st')
    | Fail e => (Raise (Exception e), st')
    end.

(** Lines 83-84, the body of the [try]. *)
Definition load_recent (recent_thread : pyval) : M W unit :=
  app ← extern (CCreateApp false) (create_app B false);
  tid ← thread_id_of recent_thread;
  call_load_conversation tid app.

(** Lines 86-91, the handler. *)
Definition fallback (recent_thread : pyval) : M W unit :=
  log CLogError;;
  tid ← thread_id_of recent_thread;
  setattr "current_thread_id" (VStr tid);;
  log CGetWelcomeMessage;;
  setattr "messages" (VList [VMessage (get_welcome_message B)]);;
  setattr "processed_message_ids" (VSet ∅);;
  setattr "processed_tools_ids" (VSet ∅).

(** Lines 94-100. *)
Definition start_new_conversation : M W unit :=
  nc ← extern CCreateNewConversation (create_new_conversation B);
  setattr "current_thread_id" (VStr (nc_thread_id nc));;
  setattr "messages" (VList (map VMessage (nc_messages nc)));;
  setattr "processed_message_ids" (VSet (nc_processed_message_ids nc));;
  setattr "processed_tools_ids" (VSet (nc_processed_tools_ids nc));;
  ids ← call_load_thread_ids;
  setattr "thread_ids" ids.

(** Lines 78-100. *)
Definition init_current_thread : M W unit :=
  unless_set "current_thread_id"
    (tids ← getattr "thread_ids";
     if truthy tids then
       recent_thread ← last_item tids;
       try_except (load_recent recent_thread)
                  (fun _ => fallback recent_thread)
     else start_new_conversation).

(** Lines 73-100: the roster, then the current conversation. *)
Definition bootstrap : M W unit :=
  init_thread_ids;; init_current_thread.

(** Lines 103-108. *)
Definition init_waiting : M W unit :=
  unless_set "waiting_for_approval"
    (setattr "waiting_for_approval" (VBool false));;
  unless_set "current_plan" (setattr "current_plan" VNone);;
  unless_set "approval_interrupted"
    (setattr "approval_interrupted" (VBool false)).

Definition initialize_demo_session : M W unit :=
  init_orchestrator;; init_compat;; bootstrap;; init_waiting.

(** The button whose click started this run, if any. *)
Variable clicked : option button.

(** [st.button(...)]: true in the run its click started; a disabled
    button cannot be clicked; a key drawn twice in one run is an error.
    Labels and help texts are left out. *)
Definition st_button (b : button) (disabled : bool) : M W bool :=
  fun st =>
    if bool_decide (b ∈ widgets st) then (Raise (DuplicateWidgetID b), st)
    else
      (Return (negb disabled && bool_decide (clicked = Some b)),
       State (session st) (world st) (calls st) (widgets st ++ [b])).

(** [_display_episodic_learning_section] *)
Definition display_episodic_learning_section : M W unit :=
  pressed ← st_button BtnExtract false;
  when pressed st_rerun;;
  present ← has_key "episodic_orchestrator";
  when present
    (o ← getattr "episodic_orchestrator";
     when (truthy o)
       (try_pass
          match o with
          | VObject _ => extern CGetSystemStatus (get_system_status B)
          | _ => raise (AttributeError "get_system_status")
          end)).

(** The body of the loop of [_display_conversation_list]. *)
Definition display_conversation (app : pyval) (thread_data : pyval)
  : M W unit :=
  tid ← thread_id_of thread_data;
  cur ← getattr "current_thread_id";
  let is_current := eq_str tid cur in
  pressed ← st_button (BtnThread tid) is_current;
  when pressed (call_load_conversation tid app;; st_rerun);;
  pressed ← st_button (BtnDelete tid) false;
  when pressed st_rerun.

(** [_display_conversation_list] *)
Definition display_conversation_list (app : pyval) : M W unit :=
  tids ← getattr "thread_ids";
  when (truthy tids)
    (threads ← reversed tids;
     for_each threads (display_conversation app)).

(** [display_sidebar]; what only draws ([st.header], [st.divider], the
    database captions) is left out. *)
Definition display_sidebar (app : pyval) : M W unit :=
  display_episodic_learning_section;;
  pressed ← st_button BtnNewTask false;
  when pressed st_rerun;;
  display_conversation_list app.

(** [display_chat_messages(st.session_state.messages)] *)
Definition show_messages `{CaseMap} : M W (list widget) :=
  v ← getattr "messages";
  l ← items v;
  ms ← map_M message_of l;
  mret (display_chat_messages ms).

(** [main]; the page configuration, the header and the demo banner only
    draw. *)
Definition main `{CaseMap} : M W (list widget) :=
  new_run;;
  initialize_demo_session;;
  app ← try_except (extern (CCreateApp false) (create_app B false))
                   (fun _ => log CLogWarning;; mret VNone);
  display_sidebar app;;
  show_messages.

End Run.

(** One interaction: the run the click starts and, when it ends in
    [st.rerun()], the run that follows, in which no button is pressed. *)
Definition interact {W} `{CaseMap} (B : backend W) (clicked : option button)
  : M W (list widget) :=
  fun st =>
    match main B clicked st with
    | (Raise Rerun, st') => main B None st'
    | r => r
    end.

(** The fields [initialize_demo_session] looks up with [in] before it
    writes. *)
Definition init_fields : list string :=
  ["episodic_orchestrator"; "thread_files"; "uploaded_files";
   "uploaded_file_path"; "uploaded_file_hash"; "uploaded_file_name";
   "use_episodic_learning"; "processed_content_hashes"; "expander_states";
   "thread_ids"; "current_thread_id"; "waiting_for_approval";
   "current_plan"; "approval_interrupted"].

(** The fields of the current conversation, written under the test of
    [current_thread_id] alone. *)
Definition thread_fields : list string :=
  ["current_thread_id"; "messages"; "processed_message_ids";
   "processed_tools_ids"].

Definition initialised (s : gmap string pyval) : Prop :=
  Forall (fun k => is_Some (s !! k)) init_fields.

(** The thread ids of the roster held in the session. *)
Definition roster_ids (s : gmap string pyval) : list string :=
  match s !! "thread_ids" with
  | Some (VList l) =>
      omap (fun v => match v with
                     | VThread td => Some (thread_id td)
                     | _ => None
                     end) l
  | _ => []
  end.

(** Roster referential integrity: a non-empty roster has the current
    thread among its entries. *)
Definition roster_ok (s : gmap string pyval) : Prop :=
  roster_ids s <> [] ->
  exists tid, s !! "current_thread_id" = Some (VStr tid) /\ tid ∈ roster_ids s.

(** The sessions a transition starts from and ends in: no current thread
    yet (the session before Bootstrap), or a roster is in place and the
    current thread is among its entries when it is not empty. *)
Definition anchored (s : gmap string pyval) : Prop :=
  s !! "current_thread_id" = None
  \/ (is_Some (s !! "thread_ids") /\ roster_ok s).

(** The calls that create or load a conversation. *)
Definition is_transition_call (c : call) : bool :=
  match c with
  | CCreateNewConversation | CLoadConversation _ => true
  | _ => false
  end.

(** Modelled from the spec: what the callers of [load_conversation]
    (in [backend.memory.episodic_memory.conversation], not among the
    sources) are promised for Select: the history of the thread is loaded
    into [messages], the thread becomes current, the processed-id sets
    are reset and nothing else of the session is touched; a failure
    leaves [current_thread_id] as it was. *)
Definition load_contract {W} (B : backend W) : Prop :=
  forall tid app s w,
    let '(r, (s', _)) := load_conversation B tid app s w in
    (forall k, k ∉ thread_fields -> s' !! k = s !! k)
    /\ s' !! "current_thread_id"
       = match r with
         | Ok _ => Some (VStr tid)
         | Fail _ => s !! "current_thread_id"
         end.

(** Modelled from the spec: what the callers of
    [create_new_conversation] and [load_thread_ids] (in
    [backend.memory.episodic_memory], not among the sources) are promised
    for CreateNew, "roster refreshed to include it": the roster loaded
    right after a conversation was created holds the new thread. *)
Definition create_contract {W} (B : backend W) : Prop :=
  forall w nc w1 ids w2,
    create_new_conversation B w = (Ok nc, w1) ->
    load_thread_ids B w1 = (Ok ids, w2) ->
    nc_thread_id nc ∈ map thread_id ids.

End App.

(** ** Assertions on script runs *)

Module Assertions.
Import Script App.

(** Membership of a field name in a list of names, by evaluation. *)
Ltac elem_dec := refine (bool_decide_unpack _ _); vm_compute; exact I.

Section Triples.
Context {W : Type}.

(** [hoare P m Q E]: from a state in [P], [m] ends in [Q] when it
    returns and in [E] when it raises. *)
Definition hoare {A} (P : state W -> Prop) (m : M W A)
  (Q : A -> state W -> Prop) (E : exc -> state W -> Prop) : Prop :=
  forall st, P st ->
    match m st with
    | (Return a, st') => Q a st'
    | (Raise e, st') => E e st'
    end.

(** [keeps I m]: [I] holds after [m] however it ends. *)
Definition keeps {A} (I : state W -> Prop) (m : M W A) : Prop :=
  hoare I m (fun _ => I) (fun _ => I).

(** Computations that leave the state alone. *)
Definition stateless {A} (m : M W A) : Prop := forall st, snd (m st) = st.

(** The session only grows: every field of [s0] keeps its value. *)
Definition extends (s0 : gmap string pyval) (st : state W) : Prop :=
  s0 ⊆ session st.

(** A field that is absent stays absent while a collaborator is called
    and the log is written; writing it then extends the session. *)
Definition extends_without (s0 : gmap string pyval) (key : string)
  (st : state W) : Prop :=
  extends s0 st /\ session st !! key = None.

(** The fields [ks] are set. *)
Definition has_fields (ks : list string) (st : state W) : Prop :=
  Forall (fun k => is_Some (session st !! k)) ks.

(** An invariant over the session and the log of calls; the widgets
    drawn and the collaborators' state are free. *)
Definition inv (J : gmap string pyval -> list call -> Prop) (st : state W)
  : Prop :=
  J (session st) (calls st).

Definition widget_blind (P : state W -> Prop) : Prop :=
  forall st ws, P st -> P (State (session st) (world st) (calls st) ws).

(** [load_conversation] has been called for [tid]. *)
Definition loaded (tid : string) (st : state W) : Prop :=
  CLoadConversation tid ∈ calls st.

(** The session is [s0] and the widgets drawn are [ws]. *)
Definition drawn (s0 : gmap string pyval) (ws : list button) (st : state W)
  : Prop :=
  session st = s0 /\ widgets st = ws.

(** The session is [s0] and the buttons of the entries still to come
    are not drawn yet. *)
Definition fresh_for (s0 : gmap string pyval) (ths : list thread_data)
  (st : state W) : Prop :=
  session st = s0
  /\ forall x, x ∈ ths ->
       (BtnThread (thread_id x) ∉ widgets st)
       /\ (BtnDelete (thread_id x) ∉ widgets st).

End Triples.

(** The session is [s0], and the log has grown from [c0] by calls that
    neither create nor load a conversation. *)
Definition quiet (s0 : gmap string pyval) (c0 : list call)
  (s : gmap string pyval) (cs : list call) : Prop :=
  s = s0
  /\ exists new, cs = c0 ++ new
                 /\ Forall (fun c => is_transition_call c = false) new.

(** The session is initialised and its current thread is in its
    roster. *)
Definition sound (s : gmap string pyval) (cs : list call) : Prop :=
  initialised s /\ roster_ok s.

(** A property of the log alone. *)
Definition logged (K : list call -> Prop) (s : gmap string pyval)
  (cs : list call) : Prop :=
  K cs.

End Assertions.

(** ** Concrete inputs *)

Module Fixtures.
Import Segmenter Script.

(** The message of the marker-routing example. *)
Definition routed_content : str :=
  join_nl [lit "**SUPERVISOR**"; lit "thinking...";
           lit "**REPORT_AGENT**"; lit "Done."].

(** The message of the default-classification example. *)
Definition plain_content : str := join_nl [lit "plain text"; lit "line two"].

(** A header with a space before the delimiters. *)
Definition indented_header : str := lit " **SUPERVISOR**".

(** The buffers after the header of a progress agent. *)
Definition in_progress : buffers :=
  step PROGRESS_AGENTS FINAL_AGENTS init (lit "**SUPERVISOR**").

(** Modelled from the spec: the persistence collaborator of section 6
    (the [backend] and [core] packages are not among the sources) as a
    thread store in memory: a roster, oldest first, and the history of
    each thread.  Loading a thread without history fails. *)
Record store := Store {
  threads : list thread_data;
  histories : gmap string (list message)
}.

Definition welcome : message :=
  {| role := "assistant"; content := lit "Welcome" |}.

Definition store_load_conversation (tid : string) (app : pyval)
  (s : gmap string pyval) (w : store)
  : result unit * (gmap string pyval * store) :=
  match histories w !! tid with
  | Some ms =>
      (Ok tt,
       (<["processed_tools_ids" := VSet ∅]>
          (<["processed_message_ids" := VSet ∅]>
             (<["messages" := VList (map VMessage ms)]>
                (<["current_thread_id" := VStr tid]> s))),
        w))
  | None => (Fail 404, (s, w))
  end.

Definition store_create_new_conversation (w : store)
  : result new_conv * store :=
  let tid := "thread-" +:+ pretty (length (threads w)) in
  (Ok {| nc_thread_id := tid;
         nc_messages := [welcome];
         nc_processed_message_ids := ∅;
         nc_processed_tools_ids := ∅ |},
   Store (threads w ++ [{| thread_id := tid; title := lit "New Task" |}])
         (<[tid := [welcome]]> (histories w))).

Definition store_backend : backend store :=
  {| get_orchestrator := fun w => (Ok (VObject 1), w);
     get_system_status := fun w => (Ok tt, w);
     load_thread_ids := fun w => (Ok (threads w), w);
     create_app := fun _ w => (Ok (VObject 2), w);
     load_conversation := store_load_conversation;
     get_welcome_message := welcome;
     create_new_conversation := store_create_new_conversation |}.

(** A persistence layer that is down: every call raises. *)
Definition broken_backend : backend unit :=
  {| get_orchestrator := fun w => (Fail 1, w);
     get_system_status := fun w => (Fail 1, w);
     load_thread_ids := fun w => (Fail 1, w);
     create_app := fun _ w => (Fail 1, w);
     load_conversation := fun _ _ s w => (Fail 1, (s, w));
     get_welcome_message := welcome;
     create_new_conversation := fun w => (Fail 1, w) |}.

(** A persistence layer with an empty roster that cannot create a
    thread. *)
Definition readonly_backend : backend unit :=
  {| get_orchestrator := fun w => (Ok VNone, w);
     get_system_status := fun w => (Ok tt, w);
     load_thread_ids := fun w => (Ok [], w);
     create_app := fun _ w => (Ok (VObject 2), w);
     load_conversation := fun _ _ s w => (Fail 1, (s, w));
     get_welcome_message := welcome;
     create_new_conversation := fun w => (Fail 1, w) |}.

Definition t1 : thread_data := {| thread_id := "t1"; title := lit "First" |}.
Definition t2 : thread_data := {| thread_id := "t2"; title := lit "Second" |}.

Definition hello : message := {| role := "user"; content := lit "hello" |}.

(** Two threads, both with a history. *)
Definition two_threads : store :=
  Store [t1; t2] (<["t1" := [welcome; hello]]> (<["t2" := [welcome]]> ∅)).

(** A roster entry whose history is lost. *)
Definition lost_history : store := Store [t1] ∅.

(** The store before any conversation. *)
Definition no_threads : store := Store [] ∅.

(** A session after initialisation: the roster [t1; t2], [t2] current. *)
Definition ready_session (waiting : bool) : gmap string pyval :=
  list_to_map
    [("episodic_orchestrator", VObject 1);
     ("thread_files", VDict []);
     ("uploaded_files", VList []);
     ("uploaded_file_path", VNone);
     ("uploaded_file_hash", VNone);
     ("uploaded_file_name", VNone);
     ("use_episodic_learning", VBool true);
     ("processed_content_hashes", VSet ∅);
     ("expander_states",
      VDict [("progress_expander", VBool true);
             ("show_progress_content", VBool false)]);
     ("thread_ids", VList [VThread t1; VThread t2]);
     ("current_thread_id", VStr "t2");
     ("messages", VList [VMessage welcome]);
     ("processed_message_ids", VSet ∅);
     ("processed_tools_ids", VSet ∅);
     ("waiting_for_approval", VBool waiting);
     ("current_plan", VNone);
     ("approval_interrupted", VBool false)].

Definition ready (waiting : bool) : state store :=
  State (ready_session waiting) two_threads [] [].

End Fixtures.

(** ** The header, the labels and the learning controls (components.py) *)

Module Components.
Import Segmenter Script App.

(** *** [get_image_base64] and [display_header] *)

(** The alphabet of [base64.b64encode]. *)
Definition B64_ALPHABET : str :=
  lit "ABCDEFGHIJKLMNOPQRSTUVWXYZabcdefghijklmnopqrstuvwxyz0123456789+/".

(** The padding character, [=]. *)
Definition B64_PAD : N := 61.

Definition b64_char (i : N) : N := nth (N.to_nat i) B64_ALPHABET B64_PAD.

(** [base64.b64encode(data)]: three bytes give four characters of six
    bits each; one or two bytes left over are padded. *)
Fixpoint b64encode (data : list N) : list N :=
  match data with
  | [] => []
  | [a] =>
      [b64_char (a / 4); b64_char (a mod 4 * 16); B64_PAD; B64_PAD]
  | [a; b] =>
      [b64_char (a / 4); b64_char (a mod 4 * 16 + b / 16);
       b64_char (b mod 16 * 4); B64_PAD]
  | a :: b :: c :: rest =>
      b64_char (a / 4) :: b64_char (a mod 4 * 16 + b / 16)
      :: b64_char (b mod 16 * 4 + c / 64) :: b64_char (c mod 64)
      :: b64encode rest
  end.

(** [bytes.decode()]: UTF-8.  Only its ASCII part is fixed here: ASCII
    bytes decode to themselves. *)
Class Utf8 := {
  utf8_decode : list N -> option str;
  utf8_decode_ascii :
    forall bs, is_ascii bs = true -> utf8_decode bs = Some bs
}.

(** The decoder that takes ASCII and nothing else. *)
#[export] Instance ascii_utf8 : Utf8 | 100.
Proof.
  refine {| utf8_decode := fun bs => if is_ascii bs then Some bs else None |}.
  intros bs ->. reflexivity.
Defined.

(** The [UnicodeDecodeError] of a failed [decode]. *)
Definition UNICODE_DECODE_ERROR : N := 1000.

(** [get_image_base64(file_path)], over what [open] and [read] gave:
    the bytes of the file, or the exception they raised. *)
Definition get_image_base64 `{Utf8} (file : result (list N)) : result str :=
  match file with
  | Ok data =>
      match utf8_decode (b64encode data) with
      | Some s => Ok s
      | None => Fail UNICODE_DECODE_ERROR
      end
  | Fail e => Fail e
  end.

Definition QUOTE : str := [34].

Definition indent (n : nat) : str := repeat 32 n.

(** The f-string of [display_header]. *)
Definition header_html (logo_base64 app_title : str) : str :=
  [NL] ++ indent 12
  ++ lit "<div style=" ++ QUOTE ++ lit "display: flex; align-items: center;"
  ++ QUOTE ++ lit ">"
  ++ [NL] ++ indent 16
  ++ lit "<img src=" ++ QUOTE ++ lit "data:image/png;base64," ++ logo_base64
  ++ QUOTE ++ lit " width=" ++ QUOTE ++ lit "60" ++ QUOTE
  ++ lit " style=" ++ QUOTE ++ lit "margin-right: 10px;" ++ QUOTE ++ lit ">"
  ++ [NL] ++ indent 16
  ++ lit "<h1 style=" ++ QUOTE ++ lit "margin: 0;" ++ QUOTE ++ lit ">"
  ++ app_title ++ lit "</h1>"
  ++ [NL] ++ indent 12 ++ lit "</div>"
  ++ [NL] ++ indent 12.

(** What [display_header] draws: the HTML with the logo, or the
    title. *)
Inductive header :=
| HeaderMarkdown (html : str)
| HeaderTitle (title : str).

(** [display_header()], over the title of the application and the file
    of the logo. *)
Definition display_header `{Utf8} (app_title : str)
  (logo_file : result (list N)) : header :=
  match get_image_base64 logo_file with
  | Ok logo_base64 => HeaderMarkdown (header_html logo_base64 app_title)
  | Fail _ => HeaderTitle app_title
  end.

(** *** The label of a conversation button *)

(** U+1F535 and a space; U+1F4AC and a space. *)
Definition CURRENT_STYLE : str := [128309; 32].
Definition OTHER_STYLE : str := [128172; 32].

(** Lines 125-130 of [_display_conversation_list]:
    [f"{button_style}{conv_title}"]. *)
Definition conversation_label (is_current : bool) (title : str) : str :=
  let button_style := if is_current then CURRENT_STYLE else OTHER_STYLE in
  let conv_title :=
    if (30 <? length title)%nat then take 30 title ++ lit "..." else title in
  button_style ++ conv_title.

(** *** [add_episodic_controls] *)

Section Controls.
Context {W : Type} (B : backend W).

(** [st.session_state.get(key, default)] *)
Definition session_get (key : string) (dflt : pyval) : M W pyval :=
  fun st => (Return (default dflt (session st !! key)), st).

(** What [st.checkbox] gives for the value it is started with: that
    value, or what the user has set. *)
Variable checkbox : bool -> bool.

(** [add_episodic_controls()]: what the status holds is only drawn, and
    so is the error. *)
Definition add_episodic_controls : M W unit :=
  o ← getattr "episodic_orchestrator";
  if negb (truthy o) then mret tt
  else
    v ← session_get "use_episodic_learning" (VBool true);
    setattr "use_episodic_learning" (VBool (checkbox (truthy v)));;
    try_except
      (orchestrator ← getattr "episodic_orchestrator";
       match orchestrator with
       | VObject _ => extern CGetSystemStatus (get_system_status B)
       | _ => raise (AttributeError "get_system_status")
       end)
      (fun _ => mret tt).

End Controls.

(** *** Assertions on the sidebar *)

(** The buttons of roster entries, in the order they are drawn. *)
Definition buttons_of (ths : list thread_data) : list button :=
  flat_map (fun td => [BtnThread (thread_id td); BtnDelete (thread_id td)])
           ths.

(** The clicks that press no button of the entries [ths]: none of their
    delete buttons, and of their conversation buttons only one that is
    disabled. *)
Definition idle_for (clicked : option button) (cur : pyval)
  (ths : list thread_data) : Prop :=
  forall x, x ∈ ths ->
    clicked <> Some (BtnDelete (thread_id x))
    /\ (clicked = Some (BtnThread (thread_id x)) ->
        eq_str (thread_id x) cur = true).

(** The [app] that [main] hands to the sidebar: what [create_app]
    returned, [None] when it raised. *)
Definition app_of {W} (B : backend W) (st : state W) : pyval :=
  match fst (create_app B false (world st)) with
  | Ok a => a
  | Fail _ => VNone
  end.

End Components.

(** ** The defaults of [initialize_demo_session] (app.py) *)

Module Defaults.
Import Script.

(** Lines 44-71: the fields written under a membership test, with the
    values they are given. *)
Definition COMPAT_DEFAULTS : list (string * pyval) :=
  [("thread_files", VDict []);
   ("uploaded_files", VList []);
   ("uploaded_file_path", VNone);
   ("uploaded_file_hash", VNone);
   ("uploaded_file_name", VNone);
   ("use_episodic_learning", VBool true);
   ("processed_content_hashes", VSet ∅);
   ("expander_states",
    VDict [("progress_expander", VBool true);
           ("show_progress_content", VBool false)])].

(** Lines 103-108. *)
Definition WAITING_DEFAULTS : list (string * pyval) :=
  [("waiting_for_approval", VBool false);
   ("current_plan", VNone);
   ("approval_interrupted", VBool false)].

End Defaults.

(** * Properties *)

(** ** Python text *)

Module PyStrFacts.

Lemma split_nl_line (l s : str) :
  NL ∉ l -> split_nl (l ++ NL :: s) = l :: split_nl s.
Proof.
  induction l as [|c l IH]; intros Hl; simpl.
  - done.
  - apply not_elem_of_cons in Hl as [Hc Hl].
    destruct (N.eqb_spec c NL) as [->|_]; [done|]. by rewrite IH.
Qed.

Lemma split_nl_no_newline (s : str) : Forall (fun l => NL ∉ l) (split_nl s).
Proof.
  induction s as [|c s IH]; simpl.
  - repeat constructor. apply not_elem_of_nil.
  - destruct (N.eqb_spec c NL) as [->|Hc].
    + constructor; [apply not_elem_of_nil|done].
    + assert (Hc' : NL <> c) by done.
      destruct (split_nl s) as [|l ls].
      * repeat constructor. apply not_elem_of_cons.
        split; [done|apply not_elem_of_nil].
      * inversion IH; subst. constructor; [|done].
        by apply not_elem_of_cons.
Qed.

Lemma unlines_app (xs ys : list str) :
  unlines (xs ++ ys) = unlines xs ++ unlines ys.
Proof. apply flat_map_app. Qed.

Lemma unlines_cons (l : str) (ls : list str) :
  unlines (l :: ls) = l ++ NL :: unlines ls.
Proof. unfold unlines. simpl. by rewrite <- app_assoc. Qed.

(** Joining what [split] gave, a newline after every line, is the text
    and one newline. *)
Lemma unlines_split_nl (s : str) : unlines (split_nl s) = s ++ [NL].
Proof.
  induction s as [|c s IH]; [done|]. simpl.
  destruct (N.eqb_spec c NL) as [->|Hc].
  - rewrite unlines_cons, IH. done.
  - destruct (split_nl s) as [|l ls].
    + simpl in IH. destruct s; discriminate.
    + rewrite unlines_cons in *. simpl. by rewrite IH.
Qed.

Lemma split_nl_unlines (ls : list str) :
  Forall (fun l => NL ∉ l) ls -> split_nl (unlines ls) = ls ++ [[]].
Proof.
  induction 1 as [|l ls Hl _ IH]; [done|].
  rewrite unlines_cons, split_nl_line by done. by rewrite IH.
Qed.

(** The lines read back from a buffer are the lines put into it. *)
Lemma buffer_lines_unlines (ls : list str) :
  Forall (fun l => NL ∉ l) ls -> buffer_lines (unlines ls) = ls.
Proof.
  intros Hls. unfold buffer_lines.
  rewrite split_nl_unlines by done. apply removelast_last.
Qed.

Lemma is_space_NL : is_space NL = true.
Proof. reflexivity. Qed.

Lemma lstrip_snoc_space (s : str) (c : N) :
  is_space c = true ->
  lstrip (s ++ [c]) = match lstrip s with [] => [] | _ => lstrip s ++ [c] end.
Proof.
  intros Hc. induction s as [|d s IH]; simpl.
  - by rewrite Hc.
  - destruct (is_space d); [done|]. done.
Qed.

Lemma rstrip_snoc_space (s : str) (c : N) :
  is_space c = true -> rstrip (s ++ [c]) = rstrip s.
Proof.
  intros Hc. unfold rstrip. rewrite rev_unit. simpl. by rewrite Hc.
Qed.

(** A trailing whitespace character does not survive [strip]. *)
Lemma strip_snoc_space (s : str) (c : N) :
  is_space c = true -> strip (s ++ [c]) = strip s.
Proof.
  intros Hc. unfold strip. rewrite lstrip_snoc_space by done.
  destruct (lstrip s) as [|d s'] eqn:E; [done|].
  by rewrite rstrip_snoc_space.
Qed.

Lemma startswith_head (s p : str) (c : N) :
  startswith s (c :: p) = true -> exists r, s = c :: r.
Proof.
  destruct s as [|d s]; [done|]. cbn [startswith].
  intros [Hc _]%andb_prop. apply N.eqb_eq in Hc. subst. by eauto.
Qed.

Lemma upper_ascii `{CaseMap} (s : str) :
  is_ascii s = true -> upper s = map ascii_upper s.
Proof.
  unfold upper. induction s as [|c s IH]; simpl; [done|].
  intros [Hc Hs]%andb_prop. apply N.ltb_lt in Hc.
  by rewrite to_upper_ascii, IH.
Qed.

Lemma split_nl_ascii (s : str) :
  is_ascii s = true -> Forall (fun l => is_ascii l = true) (split_nl s).
Proof.
  induction s as [|c s IH]; simpl.
  - by repeat constructor.
  - intros [Hc Hs]%andb_prop. specialize (IH Hs).
    destruct (c =? NL); [by constructor|].
    destruct (split_nl s) as [|l ls]; [repeat constructor; simpl; by rewrite Hc|].
    inversion IH; subst. constructor; [|done]. simpl. by rewrite Hc.
Qed.

End PyStrFacts.

(** ** The segmenter *)

Module SegmenterFacts.
Import Segmenter PyStrFacts.

Section Facts.
Context `{CaseMap}.
Variables progress_markers final_markers : list str.

Local Abbreviation next_section := (Segmenter.next_section progress_markers final_markers).
Local Abbreviation step := (Segmenter.step progress_markers final_markers).
Local Abbreviation scan := (Segmenter.scan progress_markers final_markers).
Local Abbreviation accumulate := (Segmenter.accumulate progress_markers final_markers).
Local Abbreviation segment := (Segmenter.segment progress_markers final_markers).

Lemma scan_cons (b : buffers) (line : str) (lines : list str) :
  scan b (line :: lines) = scan (step b line) lines.
Proof. reflexivity. Qed.

(** What a run of the loop adds to the two buffers: the lines it was
    given, split in two without reordering. *)
Lemma scan_partition (lines : list str) (b : buffers) :
  exists fl pl,
    final_content (scan b lines) = final_content b ++ unlines fl
    /\ progress_content (scan b lines) = progress_content b ++ unlines pl
    /\ fl ++ pl ≡ₚ lines
    /\ fl `sublist_of` lines
    /\ pl `sublist_of` lines.
Proof.
  revert b. induction lines as [|l lines IH]; intros b.
  - exists [], []. simpl. by rewrite !app_nil_r.
  - rewrite scan_cons.
    destruct (IH (step b l)) as (fl & pl & Hf & Hp & Hperm & Hsf & Hsp).
    rewrite Hf, Hp. unfold Segmenter.step.
    destruct (next_section (current_section b) l); simpl.
    + exists fl, (l :: pl). rewrite unlines_cons.
      split; [done|]. split; [by rewrite <- !app_assoc|].
      split; [by rewrite <- Permutation_middle, Hperm|].
      split; [by apply sublist_cons|by apply sublist_skip].
    + exists (l :: fl), pl. rewrite unlines_cons.
      split; [by rewrite <- !app_assoc|]. split; [done|].
      split; [simpl; by rewrite Hperm|].
      split; [by apply sublist_skip|by apply sublist_cons].
Qed.

Lemma sublist_Forall {A} (P : A -> Prop) (xs ys : list A) :
  xs `sublist_of` ys -> Forall P ys -> Forall P xs.
Proof.
  intros Hs Hys. apply Forall_forall. intros x Hx.
  rewrite Forall_forall in Hys. apply Hys. by eapply elem_of_sublist.
Qed.

(** The header test leaves the section alone on a line that is not
    bold-delimited or names no agent. *)
Lemma next_section_unmarked (cur : section) (line : str) :
  bold_delimited line = false
  \/ (any_in progress_markers (upper line) = false
      /\ any_in final_markers (upper line) = false) ->
  next_section cur line = cur.
Proof.
  unfold Segmenter.next_section. intros [->|[-> ->]]; [done|].
  by destruct (bold_delimited line).
Qed.

(** While no line switches to progress, everything goes to the final
    buffer. *)
Lemma scan_all_final (lines : list str) (b : buffers) :
  current_section b = final ->
  Forall (fun l => bold_delimited l
                   && any_in progress_markers (upper l) = false) lines ->
  current_section (scan b lines) = final
  /\ progress_content (scan b lines) = progress_content b
  /\ final_content (scan b lines) = final_content b ++ unlines lines.
Proof.
  revert b. induction lines as [|l lines IH]; intros b Hb Hl.
  - simpl. by rewrite app_nil_r.
  - inversion Hl as [|? ? Hhd Htl]; subst. rewrite scan_cons.
    assert (Hn : next_section (current_section b) l = final).
    { unfold Segmenter.next_section. rewrite Hb.
      destruct (bold_delimited l); [|done]. simpl in Hhd. rewrite Hhd.
      by destruct (any_in final_markers (upper l)). }
    destruct (IH (step b l)) as (Hc & Hp & Hf); [|done|].
    + unfold Segmenter.step. by rewrite Hn.
    + rewrite Hc, Hp, Hf, unlines_cons. unfold Segmenter.step. rewrite Hn.
      cbn [progress_content final_content].
      split; [done|]. split; [done|]. by rewrite <- !app_assoc.
Qed.

Lemma step_section (b : buffers) (line : str) :
  current_section (step b line) = next_section (current_section b) line.
Proof.
  unfold Segmenter.step.
  by destruct (next_section (current_section b) line).
Qed.

(** What [step] does once the section it chooses is known. *)
Lemma step_buffers (b : buffers) (line : str) :
  match next_section (current_section b) line with
  | progress =>
      progress_content (step b line) = progress_content b ++ line ++ [NL]
      /\ final_content (step b line) = final_content b
  | final =>
      final_content (step b line) = final_content b ++ line ++ [NL]
      /\ progress_content (step b line) = progress_content b
  end.
Proof.
  unfold Segmenter.step.
  by destruct (next_section (current_section b) line).
Qed.

(** Over lines that leave the section alone, the loop appends to the
    buffer of the section it started in. *)
Lemma scan_unmarked (lines : list str) (b : buffers) :
  Forall (fun l => next_section (current_section b) l = current_section b)
         lines ->
  current_section (scan b lines) = current_section b
  /\ match current_section b with
     | progress =>
         progress_content (scan b lines)
         = progress_content b ++ unlines lines
         /\ final_content (scan b lines) = final_content b
     | final =>
         final_content (scan b lines) = final_content b ++ unlines lines
         /\ progress_content (scan b lines) = progress_content b
     end.
Proof.
  revert b. induction lines as [|l lines IH]; intros b Hl.
  - simpl. rewrite !app_nil_r. by destruct (current_section b).
  - inversion Hl as [|? ? Hhd Htl]; subst. rewrite scan_cons, unlines_cons.
    pose proof (step_section b l) as Hs. rewrite Hhd in Hs.
    pose proof (step_buffers b l) as Hb. rewrite Hhd in Hb.
    destruct (IH (step b l)) as [Hc Hm]; [by rewrite Hs|].
    rewrite Hc, Hs. split; [done|]. rewrite Hs in Hm.
    destruct (current_section b); destruct Hm as [-> ->], Hb as [-> ->];
      by rewrite <- !app_assoc.
Qed.

(** A bold-delimited line has no whitespace around it. *)
Lemma bold_delimited_stripped (line : str) :
  bold_delimited line = true -> strip line = line.
Proof.
  unfold bold_delimited, endswith. change BOLD with [42; 42].
  change (rev [42; 42]) with [42; 42].
  intros [[r ->]%startswith_head [r' Hr']%startswith_head]%andb_prop.
  unfold strip, rstrip. change (lstrip (42 :: r)) with (42 :: r).
  rewrite Hr'. change (lstrip (42 :: r')) with (42 :: r').
  rewrite <- Hr'. apply rev_involutive.
Qed.

End Facts.

(** On ASCII text the segmenter does not depend on the case mapping. *)
Lemma next_section_ascii `{CaseMap} (pm fm : list str) (cur : section)
  (line : str) :
  is_ascii line = true ->
  next_section pm fm cur line = @next_section ascii_case pm fm cur line.
Proof.
  intros Hl. unfold next_section.
  by rewrite (upper_ascii line Hl), (@upper_ascii ascii_case line Hl).
Qed.

Lemma scan_ascii `{CaseMap} (pm fm : list str) (lines : list str)
  (b : buffers) :
  Forall (fun l => is_ascii l = true) lines ->
  scan pm fm b lines = @scan ascii_case pm fm b lines.
Proof.
  intros Hl. revert b. induction Hl as [|l lines Hl _ IH]; intros b; [done|].
  unfold scan in *. simpl. rewrite <- IH. f_equal.
  unfold step. by rewrite (next_section_ascii pm fm _ l Hl).
Qed.

Lemma segment_ascii `{CaseMap} (pm fm : list str) (content : str) :
  is_ascii content = true ->
  segment pm fm content = @segment ascii_case pm fm content.
Proof.
  intros Hc. unfold segment, accumulate.
  by rewrite (scan_ascii pm fm _ init (split_nl_ascii content Hc)).
Qed.

End SegmenterFacts.

Module SegmenterClaims.
Import Segmenter PyStrFacts SegmenterFacts Fixtures.

(** C1.  The marker-routing example: with SUPERVISOR as the progress
    marker and REPORT_AGENT as the final marker, the message
    "**SUPERVISOR**\nthinking...\n**REPORT_AGENT**\nDone." gives exactly
    two segments, the final one first with text "**REPORT_AGENT**\nDone."
    and the progress one second with text "**SUPERVISOR**\nthinking...";
    [display_chat_messages], with the vocabularies of the source, draws the
    same two texts, the second inside the expander. *)
Theorem marker_routing `{CaseMap} :
  segment [lit "SUPERVISOR"] [lit "REPORT_AGENT"] routed_content
  = [(final, join_nl [lit "**REPORT_AGENT**"; lit "Done."]);
     (progress, join_nl [lit "**SUPERVISOR**"; lit "thinking..."])]
  /\ display_message {| role := "assistant"; content := routed_content |}
     = [Markdown (join_nl [lit "**REPORT_AGENT**"; lit "Done."]);
        Expander PROGRESS_LABEL false
          [Markdown (join_nl [lit "**SUPERVISOR**"; lit "thinking..."])]].
Proof.
  assert (Ha : is_ascii routed_content = true) by reflexivity.
  split.
  - rewrite (segment_ascii _ _ _ Ha). reflexivity.
  - unfold display_message. cbn [role content].
    rewrite (segment_ascii _ _ _ Ha). reflexivity.
Qed.

(** C2.  Segment completeness: for every content, the lines of the two
    buffers taken together are the lines of the content, each exactly as
    often as it occurs there (so every non-blank line exactly once), and
    the lines of each buffer stand in the order they have in the
    content. *)
Theorem segment_completeness `{CaseMap} (progress_markers final_markers : list str)
  (content : str) :
  let b := accumulate progress_markers final_markers content in
  buffer_lines (final_content b ++ progress_content b) ≡ₚ split_nl content
  /\ filter (fun l => strip l <> []) 
       (buffer_lines (final_content b ++ progress_content b))
     ≡ₚ filter (fun l => strip l <> []) (split_nl content)
  /\ buffer_lines (final_content b) `sublist_of` split_nl content
  /\ buffer_lines (progress_content b) `sublist_of` split_nl content.
Proof.
  intros b. subst b. unfold accumulate.
  destruct (scan_partition progress_markers final_markers (split_nl content) init)
    as (fl & pl & -> & -> & Hperm & Hsf & Hsp).
  pose proof (split_nl_no_newline content) as Hnl.
  pose proof (sublist_Forall _ _ _ Hsf Hnl) as Hfl.
  pose proof (sublist_Forall _ _ _ Hsp Hnl) as Hpl.
  cbn [final_content progress_content init app].
  rewrite <- unlines_app, !buffer_lines_unlines
    by (try apply Forall_app; done).
  split; [done|]. split; [by rewrite Hperm|]. done.
Qed.

(** C3, as amended.  For every content without header lines the section
    stays final and the progress buffer stays empty throughout, the
    final buffer is the content and a newline, and the result is the
    single final segment holding the stripped content when that is not
    empty, and no segment at all when the content is empty or only
    whitespace.  Empty content in particular gives no segment;
    [display_chat_messages] does not segment it and hands it to
    [st.markdown] as it is. *)
Theorem no_header_all_final `{CaseMap} (progress_markers final_markers : list str)
  (content : str) :
  Forall (fun l => header_line progress_markers final_markers l = false)
         (split_nl content) ->
  (forall pre, pre `prefix_of` split_nl content ->
     current_section (scan progress_markers final_markers init pre) = final
     /\ progress_content (scan progress_markers final_markers init pre) = [])
  /\ final_content (accumulate progress_markers final_markers content)
     = content ++ [NL]
  /\ segment progress_markers final_markers content
     = (if nonempty (strip content) then [(final, strip content)] else [])
  /\ (content = [] ->
      segment progress_markers final_markers content = []
      /\ forall r, display_message {| role := r; content := content |}
                   = [Markdown []]).
Proof.
  intros Hno.
  assert (Hq : Forall (fun l => bold_delimited l
                 && any_in progress_markers (upper l) = false)
                 (split_nl content)).
  { eapply Forall_impl; [exact Hno|]. intros l. unfold header_line.
    destruct (bold_delimited l); [|done]. simpl.
    by intros [-> _]%orb_false_elim. }
  destruct (scan_all_final progress_markers final_markers _ init eq_refl Hq)
    as (Hc & Hp & Hf).
  rewrite unlines_split_nl in Hf. cbn [final_content init app] in Hf.
  assert (Hseg : segment progress_markers final_markers content
                 = if nonempty (strip content)
                   then [(final, strip content)] else []).
  { unfold segment, emit, accumulate. rewrite Hf, Hp.
    rewrite (strip_snoc_space _ _ is_space_NL). cbn [progress_content init].
    change (strip []) with (@nil N). cbn [nonempty]. by rewrite app_nil_r. }
  split; [|split; [exact Hf|split; [exact Hseg|]]].
  - intros pre [post Hpre]. rewrite Hpre in Hq.
    apply Forall_app in Hq as [Hq _].
    by destruct (scan_all_final progress_markers final_markers _ init eq_refl Hq)
      as (? & ? & _).
  - intros ->. split; [exact Hseg|]. intros r. unfold display_message.
    cbn [Segmenter.content nonempty]. by rewrite andb_false_r.
Qed.

(** The default-classification example: no markers, two plain lines. *)
Lemma no_header_all_final_witness :
  segment [] [] plain_content = [(final, plain_content)].
Proof.
  refine (proj1 (proj2 (proj2
    (no_header_all_final (H := ascii_case) [] [] plain_content _)))).
  repeat constructor.
Defined.

(** C3 as stated fails on content that is only whitespace: a single
    space has no header line, and no segment comes out of it. *)
Lemma no_header_blank_content :
  Forall (fun l => header_line PROGRESS_AGENTS FINAL_AGENTS l = false)
         (split_nl (lit " "))
  /\ segment PROGRESS_AGENTS FINAL_AGENTS (lit " ") = []
  /\ segment PROGRESS_AGENTS FINAL_AGENTS (lit " ")
     <> [(final, strip (lit " "))].
Proof. split; [by repeat constructor|]. split; [reflexivity|discriminate]. Qed.

(** C4, as amended.  The header test reads the line as [split] gave
    it, not its stripped text: a line that starts and ends with the bold
    delimiter and whose upper-case form names a progress agent switches
    to progress; one that names no progress agent but a final agent
    switches to final; a line with whitespace before or after the
    delimiters is no header and leaves the section as it was. *)
Theorem header_test_on_raw_line `{CaseMap} (progress_markers final_markers : list str)
  (b : buffers) (line : str) :
  (bold_delimited line = true ->
   any_in progress_markers (upper line) = true ->
   current_section (step progress_markers final_markers b line) = progress)
  /\ (bold_delimited line = true ->
      any_in progress_markers (upper line) = false ->
      any_in final_markers (upper line) = true ->
      current_section (step progress_markers final_markers b line) = final)
  /\ (strip line <> line ->
      current_section (step progress_markers final_markers b line)
      = current_section b).
Proof.
  rewrite step_section. unfold next_section. repeat split.
  - by intros -> ->.
  - by intros -> -> ->.
  - intros Hs. destruct (bold_delimited line) eqn:Hb; [|done].
    by apply bold_delimited_stripped in Hb.
Qed.

(** The SUPERVISOR header switches to progress, the REPORT_AGENT header
    back to final, and the same header after two spaces switches
    nothing. *)
Lemma header_test_on_raw_line_witness :
  current_section
    (step PROGRESS_AGENTS FINAL_AGENTS init (lit "**SUPERVISOR**"))
  = progress
  /\ current_section
       (step PROGRESS_AGENTS FINAL_AGENTS in_progress
          (lit "**REPORT_AGENT**"))
     = final
  /\ current_section
       (step PROGRESS_AGENTS FINAL_AGENTS in_progress
          (lit "  **REPORT_AGENT**"))
     = progress.
Proof.
  split; [|split].
  - apply (proj1 (header_test_on_raw_line (H := ascii_case)
                    PROGRESS_AGENTS FINAL_AGENTS init
                    (lit "**SUPERVISOR**"))); reflexivity.
  - apply (proj1 (proj2 (header_test_on_raw_line (H := ascii_case)
                    PROGRESS_AGENTS FINAL_AGENTS in_progress
                    (lit "**REPORT_AGENT**")))); reflexivity.
  - apply (proj2 (proj2 (header_test_on_raw_line (H := ascii_case)
                    PROGRESS_AGENTS FINAL_AGENTS in_progress
                    (lit "  **REPORT_AGENT**")))). discriminate.
Defined.

(** C4 as stated fails on a header with a space before the delimiters:
    its stripped text is bold-delimited and names SUPERVISOR, and the
    section stays final. *)
Lemma header_test_indented :
  bold_delimited (strip indented_header) = true
  /\ any_in PROGRESS_AGENTS (upper (strip indented_header)) = true
  /\ any_in PROGRESS_AGENTS (upper indented_header) = true
  /\ current_section (step PROGRESS_AGENTS FINAL_AGENTS init indented_header)
     = final
  /\ current_section (step PROGRESS_AGENTS FINAL_AGENTS init indented_header)
     <> progress.
Proof. by repeat split. Qed.

(** C5.  A bold-delimited line whose upper-case text names no agent of
    either vocabulary leaves the section unchanged, so that line and the
    lines after it that are not headers are appended to the buffer of the
    section in effect before it, and the other buffer is not touched. *)
Theorem unmatched_header_keeps_section `{CaseMap}
  (progress_markers final_markers : list str)
  (b : buffers) (line : str) (rest : list str) :
  bold_delimited line = true ->
  any_in progress_markers (upper line) = false ->
  any_in final_markers (upper line) = false ->
  Forall (fun l => bold_delimited l = false) rest ->
  let b' := scan progress_markers final_markers b (line :: rest) in
  current_section (step progress_markers final_markers b line)
  = current_section b
  /\ current_section b' = current_section b
  /\ match current_section b with
     | progress =>
         progress_content b' = progress_content b ++ unlines (line :: rest)
         /\ final_content b' = final_content b
     | final =>
         final_content b' = final_content b ++ unlines (line :: rest)
         /\ progress_content b' = progress_content b
     end.
Proof.
  intros Hb Hp Hf Hrest b'. subst b'.
  assert (Hline : next_section progress_markers final_markers
                    (current_section b) line = current_section b).
  { apply next_section_unmarked. by right. }
  split; [by rewrite step_section|].
  apply scan_unmarked. constructor; [done|].
  eapply Forall_impl; [exact Hrest|]. intros l Hl.
  apply next_section_unmarked. by left.
Qed.

(** After the SUPERVISOR header, the header of an agent outside both
    vocabularies and the line after it go to the progress buffer. *)
Lemma unmatched_header_keeps_section_witness :
  progress_content
    (scan PROGRESS_AGENTS FINAL_AGENTS in_progress
       [lit "**TOOL_AGENT**"; lit "working"])
  = unlines [lit "**SUPERVISOR**"; lit "**TOOL_AGENT**"; lit "working"]
  /\ final_content
       (scan PROGRESS_AGENTS FINAL_AGENTS in_progress
          [lit "**TOOL_AGENT**"; lit "working"])
     = [].
Proof.
  refine (proj2 (proj2
    (unmatched_header_keeps_section (H := ascii_case)
       PROGRESS_AGENTS FINAL_AGENTS in_progress
       (lit "**TOOL_AGENT**") [lit "working"] _ _ _ _))).
  - reflexivity.
  - reflexivity.
  - reflexivity.
  - by repeat constructor.
Defined.

End SegmenterClaims.

(** ** The script monad *)

Module ScriptFacts.
Import Script Assertions.

Lemma elem_of_rev {A} (x : A) (l : list A) : x ∈ rev l -> x ∈ l.
Proof. rewrite !list_elem_of_In. apply in_rev. Qed.

Lemma elem_of_map {A C} (f : A -> C) (y : C) (l : list A) :
  y ∈ map f l -> exists x, y = f x /\ x ∈ l.
Proof.
  rewrite list_elem_of_In, in_map_iff. intros (x & Hx & Hin).
  exists x. by rewrite list_elem_of_In.
Qed.

Section Hoare.
Context {W : Type}.

Lemma hoare_conseq {A} (P P' : state W -> Prop) (m : M W A)
  (Q Q' : A -> state W -> Prop) (E E' : exc -> state W -> Prop) :
  hoare P' m Q' E' ->
  (forall st, P st -> P' st) ->
  (forall a st, Q' a st -> Q a st) ->
  (forall e st, E' e st -> E e st) ->
  hoare P m Q E.
Proof.
  intros Hm HP HQ HE st Hst. specialize (Hm st (HP st Hst)).
  destruct (m st) as [[a|e] st']; auto.
Qed.

(** A fact that does not depend on the state can be taken out of the
    precondition. *)
Lemma hoare_assume {A} (fact : Prop) (P : state W -> Prop) (m : M W A) Q E :
  (fact -> hoare P m Q E) -> hoare (fun st => fact /\ P st) m Q E.
Proof. intros Hm st [Hf Hst]. by apply Hm. Qed.

Lemma hoare_ret {A} (a : A) (P : state W -> Prop) Q E :
  (forall st, P st -> Q a st) -> hoare P (mret a) Q E.
Proof. intros HQ st Hst. by apply HQ. Qed.

Lemma hoare_raise {A} (e : exc) (P : state W -> Prop)
  (Q : A -> state W -> Prop) E :
  (forall st, P st -> E e st) -> hoare P (raise e) Q E.
Proof. intros HE st Hst. by apply HE. Qed.

Lemma hoare_bind {A B} (m : M W A) (k : A -> M W B)
  (P : state W -> Prop) (Q : A -> state W -> Prop)
  (R : B -> state W -> Prop) E :
  hoare P m Q E ->
  (forall a, hoare (Q a) (k a) R E) ->
  hoare P (m ≫= k) R E.
Proof.
  intros Hm Hk st Hst. specialize (Hm st Hst).
  unfold mbind, M_bind. destruct (m st) as [[a|e] st']; [|done].
  by apply Hk.
Qed.

Lemma hoare_bind_ret {A C} (a : A) (k : A -> M W C)
  (P : state W -> Prop) Q E :
  hoare P (k a) Q E -> hoare P (mret a ≫= k) Q E.
Proof. intros Hk st Hst. by apply Hk. Qed.

Lemma hoare_bind_raise {A C} (e : exc) (k : A -> M W C)
  (P : state W -> Prop) (Q : C -> state W -> Prop) E :
  (forall st, P st -> E e st) -> hoare P (raise e ≫= k) Q E.
Proof. intros HE st Hst. by apply HE. Qed.

Lemma hoare_try_except {A} (body : M W A) (handler : exc -> M W A)
  (P : state W -> Prop) Q (E' E : exc -> state W -> Prop) :
  hoare P body Q E' ->
  (forall e, is_Exception e = true -> hoare (E' e) (handler e) Q E) ->
  (forall e st, is_Exception e = false -> E' e st -> E e st) ->
  hoare P (try_except body handler) Q E.
Proof.
  intros Hb Hh Hr st Hst. specialize (Hb st Hst). unfold try_except.
  destruct (body st) as [[a|e] st']; [done|].
  destruct (is_Exception e) eqn:He; [by apply Hh|by apply Hr].
Qed.

Lemma hoare_try_pass (body : M W unit) (P : state W -> Prop)
  (Q : unit -> state W -> Prop) E :
  hoare P body Q (fun _ => Q tt) -> hoare P (try_pass body) Q E.
Proof.
  intros Hb st Hst. specialize (Hb st Hst). unfold try_pass.
  by destruct (body st) as [[[]|e] st'].
Qed.

Lemma hoare_when (c : bool) (m : M W unit) (P : state W -> Prop) Q E :
  (c = true -> hoare P m Q E) ->
  (c = false -> forall st, P st -> Q tt st) ->
  hoare P (when c m) Q E.
Proof.
  intros Ht Hf. destruct c; [by apply Ht|].
  apply hoare_ret. by apply Hf.
Qed.

Lemma hoare_for_each {A} (l : list A) (body : A -> M W unit)
  (I : state W -> Prop) E :
  (forall x, x ∈ l -> hoare I (body x) (fun _ => I) E) ->
  hoare I (for_each l body) (fun _ => I) E.
Proof.
  induction l as [|x l IH]; intros Hb; simpl.
  - by apply hoare_ret.
  - eapply hoare_bind; [apply Hb; by left|].
    intros ?. apply IH. intros y Hy. apply Hb. by right.
Qed.

Lemma hoare_has_key (key : string) (P : state W -> Prop) Q E :
  (forall st, P st -> Q (bool_decide (is_Some (session st !! key))) st) ->
  hoare P (has_key key) Q E.
Proof. intros HQ st Hst. by apply HQ. Qed.

Lemma hoare_getattr (key : string) (P : state W -> Prop) Q
  (E : exc -> state W -> Prop) :
  (forall st v, P st -> session st !! key = Some v -> Q v st) ->
  (forall st, P st -> session st !! key = None -> E (AttributeError key) st) ->
  hoare P (getattr key) Q E.
Proof.
  intros HQ HE st Hst. unfold getattr.
  destruct (session st !! key) eqn:Hk; [by apply HQ|by apply HE].
Qed.

Lemma hoare_setattr (key : string) (v : pyval) (P : state W -> Prop) Q E :
  (forall st, P st ->
     Q tt (State (<[key := v]> (session st)) (world st) (calls st)
             (widgets st))) ->
  hoare P (setattr key v) Q E.
Proof. intros HQ st Hst. by apply HQ. Qed.

Lemma hoare_log (c : call) (P : state W -> Prop) Q E :
  (forall st, P st ->
     Q tt (State (session st) (world st) (calls st ++ [c]) (widgets st))) ->
  hoare P (log c) Q E.
Proof. intros HQ st Hst. by apply HQ. Qed.

Lemma hoare_new_run (P : state W -> Prop) Q E :
  (forall st, P st -> Q tt (State (session st) (world st) (calls st) [])) ->
  hoare P new_run Q E.
Proof. intros HQ st Hst. by apply HQ. Qed.

(** A collaborator that sees only its own state: the session and the
    widgets stay, the log grows by the call. *)
Lemma hoare_extern {A} (c : call) (f : W -> result A * W)
  (P : state W -> Prop) (Q : A -> state W -> Prop)
  (E : exc -> state W -> Prop) :
  (forall st w a, P st ->
     Q a (State (session st) w (calls st ++ [c]) (widgets st))) ->
  (forall st w e, P st ->
     E (Exception e) (State (session st) w (calls st ++ [c]) (widgets st))) ->
  hoare P (extern c f) Q E.
Proof.
  intros HQ HE st Hst. unfold extern.
  destruct (f (world st)) as [[a|e] w]; [by apply HQ|by apply HE].
Qed.

Lemma hoare_unless_set (key : string) (body : M W unit)
  (P : state W -> Prop) Q E :
  hoare (fun st => P st /\ session st !! key = None) body Q E ->
  (forall st, P st -> is_Some (session st !! key) -> Q tt st) ->
  hoare P (unless_set key body) Q E.
Proof.
  intros Hb Hs st Hst. unfold unless_set, mbind, M_bind, has_key, when.
  destruct (session st !! key) as [v|] eqn:Hk.
  - rewrite bool_decide_true by eauto. apply Hs; [done|]. rewrite Hk. eauto.
  - rewrite bool_decide_false by (intros [? ?]; done). by apply Hb.
Qed.

Lemma hoare_stateless {A} (m : M W A) (I : state W -> Prop) :
  stateless m -> keeps I m.
Proof.
  intros Hm st Hst. specialize (Hm st).
  destruct (m st) as [[a|e] st']; simpl in Hm; by subst.
Qed.

Lemma hoare_stateless_weak {A} (m : M W A) (P I : state W -> Prop) :
  stateless m -> (forall st, P st -> I st) ->
  hoare P m (fun _ => I) (fun _ => I).
Proof.
  intros Hm HP. eapply hoare_conseq; [by apply hoare_stateless|done..].
Qed.

Lemma hoare_stateless_post {A} (m : M W A) (P : state W -> Prop) Q E :
  stateless m ->
  (forall a st, P st -> Q a st) -> (forall e st, P st -> E e st) ->
  hoare P m Q E.
Proof.
  intros Hm HQ HE st Hst. specialize (Hm st).
  destruct (m st) as [[a|e] st']; simpl in Hm; subst; auto.
Qed.

Lemma stateless_bind {A B} (m : M W A) (k : A -> M W B) :
  stateless m -> (forall a, stateless (k a)) -> stateless (m ≫= k).
Proof.
  intros Hm Hk st. specialize (Hm st). unfold mbind, M_bind.
  destruct (m st) as [[a|e] st']; simpl in Hm; subst; [apply Hk|done].
Qed.

Lemma stateless_last_item (v : pyval) : stateless (last_item v : M W pyval).
Proof.
  destruct v as [| | s|l| | | | |]; try done; simpl.
  - by destruct (last (list_ascii_of_string s)).
  - by destruct (last l).
Qed.

Lemma stateless_thread_id_of (v : pyval) :
  stateless (thread_id_of v : M W string).
Proof. by destruct v. Qed.

Lemma stateless_message_of (v : pyval) :
  stateless (message_of v : M W _).
Proof. by destruct v. Qed.

Lemma stateless_items (v : pyval) : stateless (items v : M W (list pyval)).
Proof. by destruct v. Qed.

Lemma stateless_map_M {A B} (f : A -> M W B) (l : list A) :
  (forall x, stateless (f x)) -> stateless (map_M f l).
Proof.
  intros Hf. induction l as [|x l IH]; simpl; [done|].
  apply stateless_bind; [done|]. intros y.
  apply stateless_bind; [done|]. done.
Qed.

Lemma stateless_getattr (key : string) : stateless (getattr key : M W pyval).
Proof. intros st. unfold getattr. by destruct (session st !! key). Qed.

End Hoare.

End ScriptFacts.

(** ** Session initialisation *)

Module InitFacts.
Import Script App Assertions ScriptFacts.

Section Init.
Context {W : Type} (B : backend W).

Lemma run_bind {A C} (m : M W A) (k : A -> M W C) (st st' : state W) (a : A) :
  m st = (Return a, st') -> (m ≫= k) st = k a st'.
Proof. intros Hm. unfold mbind, M_bind. by rewrite Hm. Qed.

(** A guarded block does nothing when its field is there. *)
Lemma unless_set_present (key : string) (body : M W unit) (st : state W) :
  is_Some (session st !! key) -> unless_set key body st = (Return tt, st).
Proof.
  intros Hk. unfold unless_set, mbind, M_bind, has_key.
  by rewrite bool_decide_true.
Qed.

Lemma unless_set_absent (key : string) (body : M W unit) (st : state W) :
  session st !! key = None -> unless_set key body st = body st.
Proof.
  intros Hk. unfold unless_set, mbind, M_bind, has_key.
  rewrite bool_decide_false; [done|]. rewrite Hk. by intros [? ?].
Qed.

(** What [load_conversation] did is there however it ended. *)
Lemma hoare_call_load (tid : string) (app : pyval) (P : state W -> Prop)
  Q E :
  (forall st, P st ->
     let r := load_conversation B tid app (session st) (world st) in
     let st' := State (fst (snd r)) (snd (snd r))
                  (calls st ++ [CLoadConversation tid]) (widgets st) in
     match fst r with
     | Ok _ => Q tt st'
     | Fail e => E (Exception e) st'
     end) ->
  hoare P (call_load_conversation B tid app) Q E.
Proof.
  intros HQ st Hst. specialize (HQ st Hst). unfold call_load_conversation.
  by destruct (load_conversation B tid app (session st) (world st))
    as [[[]|e] [s w]].
Qed.

Lemma initialised_lookup (s : gmap string pyval) (k : string) :
  initialised s -> k ∈ init_fields -> is_Some (s !! k).
Proof. unfold initialised. rewrite Forall_forall. auto. Qed.

Lemma init_compat_noop (st : state W) :
  initialised (session st) -> init_compat st = (Return tt, st).
Proof.
  intros Hi. unfold init_compat.
  repeat (erewrite run_bind;
          [|apply unless_set_present, initialised_lookup;
            [done|elem_dec]]).
  apply unless_set_present, initialised_lookup;
    [done|elem_dec].
Qed.

Lemma bootstrap_noop (st : state W) :
  initialised (session st) -> bootstrap B st = (Return tt, st).
Proof.
  intros Hi. unfold bootstrap, init_thread_ids, init_current_thread.
  erewrite run_bind;
    [|apply unless_set_present, initialised_lookup;
      [done|elem_dec]].
  apply unless_set_present, initialised_lookup;
    [done|elem_dec].
Qed.

Lemma init_waiting_noop (st : state W) :
  initialised (session st) -> init_waiting st = (Return tt, st).
Proof.
  intros Hi. unfold init_waiting.
  repeat (erewrite run_bind;
          [|apply unless_set_present, initialised_lookup;
            [done|elem_dec]]).
  apply unless_set_present, initialised_lookup;
    [done|elem_dec].
Qed.

(** With every looked-up field in place, initialisation calls no
    collaborator and writes nothing. *)
Lemma init_noop (st : state W) :
  initialised (session st) ->
  initialize_demo_session B st = (Return tt, st).
Proof.
  intros Hi. unfold initialize_demo_session, init_orchestrator.
  erewrite run_bind;
    [|apply unless_set_present, initialised_lookup;
      [done|elem_dec]].
  erewrite run_bind; [|by apply init_compat_noop].
  erewrite run_bind; [|by apply bootstrap_noop].
  by apply init_waiting_noop.
Qed.

Lemma keeps_guarded_setattr (s0 : gmap string pyval) (key : string)
  (v : pyval) :
  keeps (W := W) (extends s0) (unless_set key (setattr key v)).
Proof.
  apply hoare_unless_set; [|done].
  apply hoare_setattr. intros st [Hs Hk]. unfold extends in *. simpl.
  apply insert_subseteq_r; [|done]. eapply lookup_weaken_None; done.
Qed.

Lemma keeps_extends_bind {A C} (s0 : gmap string pyval) (m : M W A)
  (k : A -> M W C) :
  keeps (extends s0) m -> (forall a, keeps (extends s0) (k a)) ->
  keeps (extends s0) (m ≫= k).
Proof. intros Hm Hk. eapply hoare_bind; [exact Hm|exact Hk]. Qed.

Lemma extends_write (s0 : gmap string pyval) (key : string) (v : pyval)
  (st : state W) :
  extends_without s0 key st ->
  extends s0 (State (<[key := v]> (session st)) (world st) (calls st)
                (widgets st)).
Proof.
  intros [Hs Hk]. unfold extends in *. simpl.
  apply insert_subseteq_r; [|done]. eapply lookup_weaken_None; done.
Qed.

Lemma keeps_init_orchestrator (s0 : gmap string pyval) :
  keeps (extends s0) (init_orchestrator B).
Proof.
  apply hoare_unless_set; [|done].
  eapply hoare_try_except
    with (E' := fun _ => extends_without s0 "episodic_orchestrator").
  - eapply hoare_bind
      with (Q := fun _ => extends_without s0 "episodic_orchestrator").
    + apply hoare_extern; intros st w a [Hs Hk]; by split.
    + intros o. apply hoare_setattr. intros st Hst.
      by apply extends_write.
  - intros e _. eapply hoare_bind
      with (Q := fun _ => extends_without s0 "episodic_orchestrator").
    + apply hoare_log. intros st [Hs Hk]. by split.
    + intros _. apply hoare_setattr. intros st Hst. by apply extends_write.
  - intros e st _ [Hs _]. done.
Qed.

Lemma keeps_init_compat (s0 : gmap string pyval) :
  keeps (extends s0) (init_compat (W := W)).
Proof.
  unfold init_compat.
  repeat (apply keeps_extends_bind; [apply keeps_guarded_setattr|intros _]).
  apply keeps_guarded_setattr.
Qed.

Lemma keeps_init_thread_ids (s0 : gmap string pyval) :
  keeps (extends s0) (init_thread_ids B).
Proof.
  apply hoare_unless_set; [|done]. unfold call_load_thread_ids.
  eapply hoare_bind with (Q := fun _ => extends_without s0 "thread_ids").
  - eapply hoare_bind with (Q := fun _ => extends_without s0 "thread_ids").
    + apply hoare_extern; intros st w a [Hs Hk]; [by split|done].
    + intros ids. by apply hoare_ret.
  - intros v. apply hoare_setattr. intros st Hst. by apply extends_write.
Qed.

Lemma keeps_init_waiting (s0 : gmap string pyval) :
  keeps (extends s0) (init_waiting (W := W)).
Proof.
  unfold init_waiting.
  repeat (apply keeps_extends_bind; [apply keeps_guarded_setattr|intros _]).
  apply keeps_guarded_setattr.
Qed.

(** With a current thread in place, initialisation only adds fields that
    are missing. *)
Lemma init_extends (st : state W) :
  is_Some (session st !! "current_thread_id") ->
  session st ⊆ session (snd (initialize_demo_session B st)).
Proof.
  intros Hcur.
  assert (Hk : keeps (extends (session st)) (initialize_demo_session B)).
  { unfold initialize_demo_session, bootstrap.
    apply keeps_extends_bind; [apply keeps_init_orchestrator|intros _].
    apply keeps_extends_bind; [apply keeps_init_compat|intros _].
    apply keeps_extends_bind; [|intros _; apply keeps_init_waiting].
    apply keeps_extends_bind; [apply keeps_init_thread_ids|intros _].
    apply hoare_unless_set; [|done].
    intros st' [Hs Hnone]. exfalso.
    destruct Hcur as [v Hv].
    rewrite (lookup_weaken _ _ _ _ Hv Hs) in Hnone. done. }
  specialize (Hk st (reflexivity _)).
  by destruct (initialize_demo_session B st) as [[[]|e] st'].
Qed.

(** *** What a run that returns has set *)

Local Abbreviation anyhow := (fun (_ : exc) (_ : state W) => True).

Lemma has_fields_write (ks : list string) (key : string) (v : pyval)
  (st : state W) :
  has_fields ks st ->
  has_fields (key :: ks)
    (State (<[key := v]> (session st)) (world st) (calls st) (widgets st)).
Proof.
  intros Hks. constructor; simpl.
  - rewrite lookup_insert_eq. by eexists.
  - eapply Forall_impl; [exact Hks|]. intros k Hk. simpl in Hk.
    apply lookup_insert_is_Some'. by right.
Qed.

Lemma adds_guarded_setattr (ks : list string) (key : string) (v : pyval) :
  hoare (W := W) (has_fields ks) (unless_set key (setattr key v))
    (fun _ => has_fields (key :: ks)) anyhow.
Proof.
  apply hoare_unless_set.
  - apply hoare_setattr. intros st [Hks _]. by apply has_fields_write.
  - intros st Hks Hk. by constructor.
Qed.

Lemma adds_init_orchestrator (ks : list string) :
  hoare (has_fields ks) (init_orchestrator B)
    (fun _ => has_fields ("episodic_orchestrator" :: ks)) anyhow.
Proof.
  apply hoare_unless_set; [|by constructor].
  eapply hoare_try_except with (E' := fun _ => has_fields ks); [| |done].
  - eapply hoare_bind with (Q := fun _ => has_fields ks).
    + apply hoare_extern; by intros st w a [Hks _].
    + intros o. apply hoare_setattr. intros st Hks.
      by apply has_fields_write.
  - intros e _. eapply hoare_bind with (Q := fun _ => has_fields ks).
    + apply hoare_log. by intros st Hks.
    + intros ?. apply hoare_setattr. intros st Hks.
      by apply has_fields_write.
Qed.

Lemma adds_init_thread_ids (ks : list string) :
  hoare (has_fields ks) (init_thread_ids B)
    (fun _ => has_fields ("thread_ids" :: ks)) anyhow.
Proof.
  apply hoare_unless_set; [|by constructor]. unfold call_load_thread_ids.
  eapply hoare_bind with (Q := fun _ => has_fields ks).
  - eapply hoare_bind with (Q := fun _ => has_fields ks).
    + apply hoare_extern; [by intros st w a [Hks _]|done].
    + intros ids. by apply hoare_ret.
  - intros v. apply hoare_setattr. intros st Hks. by apply has_fields_write.
Qed.

(** Under its contract, [load_conversation] keeps the fields that are
    not those of the conversation. *)
Lemma load_keeps_fields (ks : list string) (tid : string) (app : pyval)
  (s : gmap string pyval) (w : W) :
  load_contract B ->
  Forall (fun k => k ∉ thread_fields) ks ->
  Forall (fun k => is_Some (s !! k)) ks ->
  Forall (fun k => is_Some (fst (snd (load_conversation B tid app s w)) !! k))
         ks
  /\ (forall a, fst (load_conversation B tid app s w) = Ok a ->
       is_Some (fst (snd (load_conversation B tid app s w))
                  !! "current_thread_id")).
Proof.
  intros Hct Hout Hks. specialize (Hct tid app s w).
  destruct (load_conversation B tid app s w) as [r [s' w']]. simpl.
  destruct Hct as [Hother Hcur]. split.
  - rewrite Forall_forall in *. intros k Hk.
    rewrite Hother; [by apply Hks|by apply Hout].
  - intros a ->. rewrite Hcur. by eexists.
Qed.

Lemma adds_init_current_thread (ks : list string) :
  load_contract B ->
  Forall (fun k => k ∉ thread_fields) ks ->
  hoare (has_fields ks) (init_current_thread B)
    (fun _ => has_fields ("current_thread_id" :: ks)) anyhow.
Proof.
  intros Hct Hout. apply hoare_unless_set; [|by constructor].
  eapply hoare_bind with (Q := fun _ => has_fields ks).
  { apply hoare_getattr; [by intros st v [Hks _] _|done]. }
  intros tids. destruct (truthy tids).
  - eapply hoare_bind with (Q := fun _ => has_fields ks).
    { apply hoare_stateless_post; [apply stateless_last_item|done..]. }
    intros recent.
    eapply hoare_try_except with (E' := fun _ => has_fields ks); [| |done].
    + unfold load_recent.
      eapply hoare_bind with (Q := fun _ => has_fields ks).
      { by apply hoare_extern. }
      intros app.
      eapply hoare_bind with (Q := fun _ => has_fields ks).
      { apply hoare_stateless_post; [apply stateless_thread_id_of|done..]. }
      intros tid. apply hoare_call_load. intros st Hks. cbn zeta.
      destruct (load_keeps_fields ks tid app (session st) (world st)
                  Hct Hout Hks) as [Hks' Hcur].
      destruct (fst (load_conversation B tid app (session st) (world st)))
        as [a|e] eqn:Hr; [|exact Hks'].
      constructor; [by apply (Hcur a)|exact Hks'].
    + intros e _. unfold fallback.
      eapply hoare_bind with (Q := fun _ => has_fields ks);
        [by apply hoare_log|intros ?].
      eapply hoare_bind with (Q := fun _ => has_fields ks).
      { apply hoare_stateless_post; [apply stateless_thread_id_of|done..]. }
      intros tid.
      eapply hoare_bind
        with (Q := fun _ => has_fields ("current_thread_id" :: ks)).
      { apply hoare_setattr. intros st Hks. by apply has_fields_write. }
      intros ?.
      eapply hoare_bind
        with (Q := fun _ => has_fields ("current_thread_id" :: ks));
        [by apply hoare_log|intros ?].
      repeat (eapply hoare_bind
                with (Q := fun _ => has_fields ("current_thread_id" :: ks));
              [|intros ?]);
        apply hoare_setattr; intros st Hks;
        by apply (Forall_inv_tail (has_fields_write _ _ _ _ Hks)).
  - unfold start_new_conversation, call_load_thread_ids.
    eapply hoare_bind with (Q := fun _ => has_fields ks);
      [by apply hoare_extern|intros nc].
    eapply hoare_bind
      with (Q := fun _ => has_fields ("current_thread_id" :: ks)).
    { apply hoare_setattr. intros st Hks. by apply has_fields_write. }
    intros ?.
    repeat (eapply hoare_bind
              with (Q := fun _ => has_fields ("current_thread_id" :: ks));
            [|intros ?]);
      try (apply hoare_setattr; intros st Hks;
           by apply (Forall_inv_tail (has_fields_write _ _ _ _ Hks)));
      try (by apply hoare_extern); try (by apply hoare_ret).
Qed.

(** Under the contract of [load_conversation], a run of the
    initialisation that returns leaves every looked-up field set. *)
Lemma init_establishes :
  load_contract B ->
  hoare (fun _ => True) (initialize_demo_session B)
    (fun _ st => initialised (session st)) anyhow.
Proof.
  intros Hct.
  unfold initialize_demo_session, init_compat, bootstrap, init_waiting.
  eapply hoare_conseq with (P' := has_fields []);
    [|by constructor|intros ? st Hst; exact Hst|done].
  eapply hoare_bind; [apply adds_init_orchestrator|intros ?].
  eapply hoare_bind.
  { repeat (eapply hoare_bind; [apply adds_guarded_setattr|intros ?]).
    apply adds_guarded_setattr. }
  intros ?. eapply hoare_bind.
  { eapply hoare_bind; [apply adds_init_thread_ids|intros ?].
    apply adds_init_current_thread; [done|].
    repeat (constructor; [elem_dec|]). constructor. }
  intros ?.
  eapply hoare_bind; [apply adds_guarded_setattr|intros ?].
  eapply hoare_bind; [apply adds_guarded_setattr|intros ?].
  eapply hoare_conseq; [apply adds_guarded_setattr|done| |done].
  intros ? st Hks. unfold initialised, has_fields in *.
  rewrite Forall_forall in *. intros k Hk. apply Hks.
  unfold init_fields in Hk.
  repeat (apply elem_of_cons in Hk as [->|Hk]); try elem_dec.
  by apply elem_of_nil in Hk.
Qed.

(** Initialisation is idempotent: a second run after one that returned
    does nothing. *)
Lemma init_twice (st st' : state W) :
  load_contract B ->
  initialize_demo_session B st = (Return tt, st') ->
  initialize_demo_session B st' = (Return tt, st').
Proof.
  intros Hct Hrun. apply init_noop.
  pose proof (init_establishes Hct st I) as Hi. by rewrite Hrun in Hi.
Qed.

End Init.

End InitFacts.

(** ** The sidebar and [main] *)

Module ControllerFacts.
Import Segmenter Script App Assertions ScriptFacts InitFacts.

Section Invariant.
Context {W : Type} `{CaseMap} (B : backend W) (clicked : option button).

Variable J : gmap string pyval -> list call -> Prop.

Local Abbreviation inv := (Assertions.inv (W := W) J).

(** The invariant allows the calls that neither create nor load a
    conversation. *)
Hypothesis J_call :
  forall s cs c, is_transition_call c = false -> J s cs -> J s (cs ++ [c]).

(** It allows what [load_conversation] does, however it ends, when the
    click was on the button of a roster entry that is not current. *)
Hypothesis J_load :
  forall tid td app s cs w l cur,
    clicked = Some (BtnThread tid) ->
    s !! "thread_ids" = Some (VList l) ->
    VThread td ∈ l -> thread_id td = tid ->
    s !! "current_thread_id" = Some cur -> eq_str tid cur = false ->
    J s cs ->
    J (fst (snd (load_conversation B tid app s w)))
      (cs ++ [CLoadConversation tid]).

Lemma inv_widget_blind : widget_blind inv.
Proof. by intros st ws. Qed.

(** A button gives its value to what follows; the widgets drawn are all
    it changes. *)
Lemma button_bind {A} (b : button) (d : bool) (k : bool -> M W A)
  (P : state W -> Prop) Q E :
  widget_blind P ->
  hoare P (k (negb d && bool_decide (clicked = Some b))) Q E ->
  (forall st, P st -> E (DuplicateWidgetID b) st) ->
  hoare P (st_button clicked b d ≫= k) Q E.
Proof.
  intros HP Hk HE st Hst. unfold mbind, M_bind, st_button.
  destruct (bool_decide (b ∈ widgets st)); [by apply HE|].
  apply Hk. by apply (HP st).
Qed.

Lemma keeps_episodic :
  keeps inv (display_episodic_learning_section B clicked).
Proof.
  unfold display_episodic_learning_section.
  apply button_bind; [apply inv_widget_blind| |done].
  eapply hoare_bind with (Q := fun _ => inv).
  { apply hoare_when; [intros _; by apply hoare_raise|done]. }
  intros _. eapply hoare_bind with (Q := fun _ => inv).
  { by apply hoare_has_key. }
  intros present. apply hoare_when; [intros _|done].
  eapply hoare_bind with (Q := fun _ => inv).
  { apply hoare_stateless, stateless_getattr. }
  intros o. apply hoare_when; [intros _|done].
  apply hoare_try_pass.
  destruct o; try (by apply hoare_raise).
  apply hoare_extern; intros st w ? Hst; by apply J_call.
Qed.

(** The loop body.  An item that is a thread entry comes from the list
    the session holds; any other item raises at once. *)
Lemma keeps_display_conversation (app x tids : pyval) :
  (forall td, x = VThread td -> exists l, tids = VList l /\ x ∈ l) ->
  hoare (fun st => inv st /\ session st !! "thread_ids" = Some tids)
    (display_conversation B clicked app x)
    (fun _ st => inv st /\ session st !! "thread_ids" = Some tids)
    (fun _ => inv).
Proof.
  intros Hx. unfold display_conversation.
  destruct x as [| | | | | |td| |];
    try (apply hoare_bind_raise; by intros st [? ?]).
  destruct (Hx td eq_refl) as (l & -> & Hin). clear Hx.
  apply hoare_bind_ret.
  eapply hoare_bind with
    (Q := fun cur st => (inv st
                         /\ session st !! "thread_ids" = Some (VList l))
                        /\ session st !! "current_thread_id" = Some cur).
  { apply hoare_getattr; [by intros st v [? ?] ?|by intros st [? ?] ?]. }
  intros cur. apply button_bind.
  { by intros st ws. }
  2:{ by intros st [[? ?] ?]. }
  eapply hoare_bind with
    (Q := fun _ st => inv st
                      /\ session st !! "thread_ids" = Some (VList l)).
  { apply hoare_when; [|by intros _ st [? ?]].
    intros [Hcur Hclick]%andb_prop.
    apply negb_true_iff in Hcur. apply bool_decide_eq_true in Hclick.
    eapply hoare_bind with (Q := fun _ => inv);
      [|intros _; by apply hoare_raise].
    apply hoare_call_load. intros st [[Hinv Hl] Hc]. cbn zeta.
    assert (HJ : inv (State
        (fst (snd (load_conversation B (thread_id td) app (session st)
                     (world st))))
        (snd (snd (load_conversation B (thread_id td) app (session st)
                     (world st))))
        (calls st ++ [CLoadConversation (thread_id td)]) (widgets st))).
    { unfold inv. simpl. by eapply J_load. }
    by destruct (fst (load_conversation B (thread_id td) app (session st)
                        (world st))). }
  intros _. apply button_bind.
  { by intros st ws. }
  2:{ by intros st [? ?]. }
  apply hoare_when; [|done]. intros _. apply hoare_raise. by intros st [? ?].
Qed.

Lemma keeps_conversation_loop (app tids : pyval) (threads : list pyval) :
  (forall x td, x ∈ threads -> x = VThread td ->
     exists l, tids = VList l /\ x ∈ l) ->
  hoare (fun st => inv st /\ session st !! "thread_ids" = Some tids)
    (for_each threads (display_conversation B clicked app))
    (fun _ => inv) (fun _ => inv).
Proof.
  intros Hth.
  eapply hoare_conseq;
    [apply hoare_for_each with
       (I := fun st => inv st /\ session st !! "thread_ids" = Some tids)
       (E := fun _ => inv)|done|by intros _ st [? ?]|done].
  intros x Hx. apply keeps_display_conversation. intros td. by apply Hth.
Qed.

Lemma keeps_conversation_list (app : pyval) :
  keeps inv (display_conversation_list B clicked app).
Proof.
  unfold display_conversation_list.
  eapply hoare_bind with
    (Q := fun tids st => inv st /\ session st !! "thread_ids" = Some tids).
  { by apply hoare_getattr. }
  intros tids. apply hoare_when; [intros _|by intros _ st [? ?]].
  destruct tids as [| |s|l|d|ids|td|m|]; simpl;
    try (apply hoare_bind_raise; by intros st [? ?]);
    try (apply hoare_raise; by intros st [? ?]).
  all: repeat apply hoare_bind_ret; apply keeps_conversation_loop;
    intros x td' Hx Heq; subst x; apply elem_of_rev in Hx.
  - by apply elem_of_map in Hx as (? & ? & ?).
  - by eauto.
  - by apply elem_of_map in Hx as (? & ? & ?).
Qed.

Lemma keeps_sidebar (app : pyval) :
  keeps inv (display_sidebar B clicked app).
Proof.
  unfold display_sidebar.
  eapply hoare_bind; [apply keeps_episodic|]. intros ?.
  apply button_bind; [apply inv_widget_blind| |done].
  eapply hoare_bind with (Q := fun _ => inv).
  { apply hoare_when; [intros _; by apply hoare_raise|done]. }
  intros _. apply keeps_conversation_list.
Qed.

Lemma stateless_show_messages : stateless (show_messages (W := W)).
Proof.
  unfold show_messages.
  apply stateless_bind; [apply stateless_getattr|]. intros v.
  apply stateless_bind; [apply stateless_items|]. intros l.
  apply stateless_bind; [|done].
  apply stateless_map_M, stateless_message_of.
Qed.

(** [main] keeps the invariant when initialisation does. *)
Lemma keeps_main :
  keeps inv (initialize_demo_session B) -> keeps inv (main B clicked).
Proof.
  intros Hinit. unfold main.
  eapply hoare_bind with (Q := fun _ => inv); [by apply hoare_new_run|].
  intros ?. eapply hoare_bind; [exact Hinit|]. intros ?.
  eapply hoare_bind with (Q := fun _ => inv).
  { eapply hoare_try_except with (E' := fun _ => inv).
    - apply hoare_extern; intros st w ? Hst; by apply J_call.
    - intros e _. eapply hoare_bind with (Q := fun _ => inv).
      + apply hoare_log. intros st Hst. by apply J_call.
      + intros _. by apply hoare_ret.
    - done. }
  intros app. eapply hoare_bind; [apply keeps_sidebar|].
  intros ?. apply hoare_stateless, stateless_show_messages.
Qed.

End Invariant.

Section Interactions.
Context {W : Type} `{CaseMap} (B : backend W).

(** An interaction keeps what both of its runs keep. *)
Lemma keeps_interact (J : gmap string pyval -> list call -> Prop)
  (clicked : option button) :
  keeps (inv J) (main B clicked) -> keeps (inv J) (main B None) ->
  keeps (inv J) (interact B clicked).
Proof.
  intros H1 H2 st Hst. unfold interact. specialize (H1 st Hst).
  destruct (main B clicked st) as [[a|e] st']; [done|].
  destruct e; try done. by apply H2.
Qed.

Lemma quiet_call s0 c0 s cs c :
  is_transition_call c = false -> quiet s0 c0 s cs -> quiet s0 c0 s (cs ++ [c]).
Proof.
  intros Hc [-> (new & -> & Hnew)]. split; [done|].
  exists (new ++ [c]). rewrite app_assoc. split; [done|].
  apply Forall_app. by split; [|constructor].
Qed.

Lemma keeps_init_quiet s0 c0 :
  initialised s0 -> keeps (inv (quiet s0 c0)) (initialize_demo_session B).
Proof.
  intros Hi st Hst. rewrite init_noop; [done|].
  destruct Hst as [-> _]. done.
Qed.

(** A click on anything but the button of a conversation, and a run
    without a click, leave an initialised session as it is and neither
    create nor load a conversation. *)
Lemma interact_quiet (clicked : option button) (st : state W) :
  initialised (session st) ->
  (forall tid, clicked <> Some (BtnThread tid)) ->
  quiet (session st) (calls st)
    (session (snd (interact B clicked st)))
    (calls (snd (interact B clicked st))).
Proof.
  intros Hi Hclick.
  assert (Hk : keeps (inv (quiet (session st) (calls st)))
                 (interact B clicked)).
  { apply keeps_interact; apply keeps_main;
      try (apply quiet_call); try (by apply keeps_init_quiet).
    - intros tid ? ? ? ? ? ? ? Hc. by destruct (Hclick tid).
    - by intros. }
  assert (H0 : inv (quiet (session st) (calls st)) st).
  { split; [done|]. exists []. by rewrite app_nil_r. }
  specialize (Hk st H0).
  by destruct (interact B clicked st) as [[a|e] st'].
Qed.

(** The roster entries of a session depend on [thread_ids] alone. *)
Lemma roster_ids_eq (s s' : gmap string pyval) :
  s' !! "thread_ids" = s !! "thread_ids" -> roster_ids s' = roster_ids s.
Proof. unfold roster_ids. by intros ->. Qed.

Lemma roster_ids_elem (s : gmap string pyval) (l : list pyval)
  (td : thread_data) :
  s !! "thread_ids" = Some (VList l) -> VThread td ∈ l ->
  thread_id td ∈ roster_ids s.
Proof.
  intros Hl Hin. unfold roster_ids. rewrite Hl.
  apply list_elem_of_omap. by exists (VThread td).
Qed.

(** Under the contract of [load_conversation], selecting a roster entry
    keeps the session initialised and the current thread in the
    roster. *)
Lemma sound_load (tid : string) (td : thread_data) (app : pyval)
  (s : gmap string pyval) (cs : list call) (w : W) (l : list pyval) :
  load_contract B ->
  s !! "thread_ids" = Some (VList l) -> VThread td ∈ l ->
  thread_id td = tid ->
  sound s cs ->
  sound (fst (snd (load_conversation B tid app s w)))
    (cs ++ [CLoadConversation tid]).
Proof.
  intros Hct Hl Hin Htd [Hi Hr]. specialize (Hct tid app s w).
  destruct (load_conversation B tid app s w) as [r [s' w']]. simpl.
  destruct Hct as [Hother Hcur].
  assert (Hids : roster_ids s' = roster_ids s).
  { apply roster_ids_eq, Hother. elem_dec. }
  split.
  - unfold initialised in *. rewrite Forall_forall in *. intros k Hk.
    destruct (decide (k = "current_thread_id")) as [->|Hne].
    + rewrite Hcur. destruct r; [by eauto|]. apply Hi. elem_dec.
    + rewrite Hother; [by apply Hi|].
      unfold init_fields in Hk.
      repeat (apply elem_of_cons in Hk as [->|Hk]); try done; try elem_dec.
      by apply elem_of_nil in Hk.
  - intros Hne. rewrite Hids in *. rewrite Hcur. destruct r.
    + exists tid. split; [done|]. subst tid. by eapply roster_ids_elem.
    + by apply Hr.
Qed.

Lemma keeps_init_sound :
  keeps (inv sound) (initialize_demo_session B).
Proof. intros st Hst. rewrite init_noop; [done|]. by destruct Hst. Qed.

Lemma interact_sound (clicked : option button) (st : state W) :
  load_contract B ->
  initialised (session st) -> roster_ok (session st) ->
  initialised (session (snd (interact B clicked st)))
  /\ roster_ok (session (snd (interact B clicked st))).
Proof.
  intros Hct Hi Hr.
  assert (Hk : keeps (inv sound) (interact B clicked)).
  { apply keeps_interact; apply keeps_main;
      try (by intros); try apply keeps_init_sound.
    intros tid td app s cs w l cur _ Hl Hin Htd _ _ Hs.
    by eapply sound_load. }
  specialize (Hk st (conj Hi Hr)).
  by destruct (interact B clicked st) as [[a|e] st'].
Qed.

(** *** What stays in the log *)

Section Log.
Variable K : list call -> Prop.
Hypothesis K_grows : forall cs c, K cs -> K (cs ++ [c]).

Local Abbreviation logged := (Assertions.logged K).

Lemma keeps_init_logged : keeps (inv logged) (initialize_demo_session B).
Proof.
  unfold initialize_demo_session, init_orchestrator, init_compat, bootstrap,
    init_thread_ids, init_current_thread, init_waiting,
    start_new_conversation, call_load_thread_ids, load_recent, fallback,
    keeps.
  repeat
    (lazymatch goal with
     | |- hoare _ (mret _) _ _ => apply hoare_ret
     | |- hoare _ (raise _) _ _ => apply hoare_raise
     | |- hoare _ (setattr _ _) _ _ => apply hoare_setattr
     | |- hoare _ (log _) _ _ => apply hoare_log
     | |- hoare _ (extern _ _) _ _ => apply hoare_extern
     | |- hoare _ (getattr _) _ _ => apply hoare_getattr
     | |- hoare _ (unless_set _ _) _ _ => apply hoare_unless_set
     | |- hoare _ (call_load_conversation _ _ _) _ _ =>
         apply hoare_call_load
     | |- hoare _ (try_except _ _) _ _ =>
         eapply hoare_try_except with (E' := fun _ => Assertions.inv logged);
         [|intros ? _|]
     | |- hoare _ (last_item _) _ _ =>
         apply hoare_stateless_weak; [apply stateless_last_item|]
     | |- hoare _ (thread_id_of _) _ _ =>
         apply hoare_stateless_weak; [apply stateless_thread_id_of|]
     | |- hoare _ (if ?c then _ else _) _ _ => destruct c
     | |- hoare _ (_ ≫= _) _ _ =>
         eapply hoare_bind with (Q := fun _ => Assertions.inv logged);
         [|intros ?]
     end;
     try (intros;
          repeat match goal with
                 | Hst : _ /\ _ |- _ => destruct Hst
                 end;
          unfold Assertions.inv, Assertions.logged in *; simpl; auto; fail)).
  intros st Hst. cbn zeta.
  destruct (fst _); unfold inv, logged in *; simpl; by apply K_grows.
Qed.

Lemma keeps_main_logged (clicked : option button) :
  keeps (inv logged) (main B clicked).
Proof.
  apply keeps_main; [| |apply keeps_init_logged];
    intros; unfold logged in *; by apply K_grows.
Qed.

End Log.

(** *** A click on the button of a conversation *)

Section Select.
Variables (tid : string) (s0 : gmap string pyval) (cur : pyval).
Hypothesis cur_s0 : s0 !! "current_thread_id" = Some cur.
Hypothesis not_current : eq_str tid cur = false.

Local Abbreviation loaded := (Assertions.loaded (W := W) tid).
Local Abbreviation drawn := (Assertions.drawn (W := W) s0).
Local Abbreviation fresh_for := (Assertions.fresh_for (W := W) s0).

(** A button that is not yet drawn gives its value and is drawn. *)
Lemma hoare_button (clicked : option button) (b : button) (d : bool)
  (P : state W -> Prop) Q E :
  (forall st, P st ->
     (b ∉ widgets st)
     /\ Q (negb d && bool_decide (clicked = Some b))
          (State (session st) (world st) (calls st) (widgets st ++ [b]))) ->
  hoare P (st_button clicked b d) Q E.
Proof.
  intros HQ st Hst. destruct (HQ st Hst) as [Hb Hq]. unfold st_button.
  by rewrite bool_decide_false.
Qed.

(** The loop reaches the entry that was clicked and loads it. *)
Lemma select_loop (app : pyval) (ths : list thread_data) :
  NoDup (map thread_id ths) ->
  tid ∈ map thread_id ths ->
  hoare (fresh_for ths)
    (for_each (map VThread ths)
       (display_conversation B (Some (BtnThread tid)) app))
    (fun _ => loaded) (fun _ => loaded).
Proof.
  induction ths as [|x ths IH]; intros Hnd Hin.
  { by apply elem_of_nil in Hin. }
  simpl in Hnd, Hin. apply NoDup_cons in Hnd as [Hx Hnd].
  cbn [map for_each]. unfold display_conversation at 1.
  destruct (decide (thread_id x = tid)) as [Heq|Hne].
  - (* the entry clicked: its button is pressed *)
    eapply hoare_bind with (Q := fun _ _ => False); [|by intros ? ? ?].
    apply hoare_bind_ret.
    eapply hoare_bind with (Q := fun v st => fresh_for (x :: ths) st /\ v = cur).
    { apply hoare_getattr.
      - intros st v [Hs Hf] Hv. rewrite Hs, cur_s0 in Hv. split; [done|].
        congruence.
      - intros st [Hs _] Hv. rewrite Hs, cur_s0 in Hv. done. }
    intros v.
    eapply hoare_bind with (Q := fun b st => b = true).
    { apply hoare_button. intros st [[Hs Hf] ->]. split.
      - apply (Hf x). by left.
      - rewrite Heq, not_current. simpl. by apply bool_decide_eq_true. }
    intros pressed.
    eapply hoare_bind with (Q := fun _ _ => False); [|by intros ? ? ?].
    apply hoare_when; [intros _|by intros -> st ?].
    eapply hoare_bind with (Q := fun _ => loaded);
      [|intros ?; by apply hoare_raise].
    apply hoare_call_load. intros st _. cbn zeta. rewrite Heq.
    assert (Hl : CLoadConversation tid
                 ∈ (calls st ++ [CLoadConversation tid])).
    { apply elem_of_app. right. by left. }
    by destruct (fst _).
  - (* another entry: neither of its buttons is pressed *)
    eapply hoare_bind with (Q := fun _ => fresh_for ths).
    2:{ intros ?. apply IH; [done|].
        apply elem_of_cons in Hin as [Hin|Hin]; [by symmetry in Hin|done]. }
    apply hoare_bind_ret.
    eapply hoare_bind with (Q := fun v st => fresh_for (x :: ths) st).
    { apply hoare_getattr; [by intros|].
      intros st [Hs _] Hv. rewrite Hs, cur_s0 in Hv. done. }
    intros v.
    assert (Hfresh : forall (st : state W) (ws : list button),
              fresh_for (x :: ths) st ->
              (forall y, y ∈ ths ->
                 (BtnThread (thread_id y) ∉ ws)
                 /\ BtnDelete (thread_id y) ∉ ws) ->
              forall y, y ∈ ths ->
                (BtnThread (thread_id y) ∉ (widgets st ++ ws))
                /\ (BtnDelete (thread_id y) ∉ (widgets st ++ ws))).
    { intros st ws [_ Hf] Hws y Hy.
      destruct (Hf y) as [? ?]; [by right|].
      destruct (Hws y Hy) as [? ?].
      split; apply not_elem_of_app; by split. }
    assert (Hother : forall y, y ∈ ths -> thread_id y <> thread_id x).
    { intros y Hy Heq. apply Hx. rewrite <- Heq.
      apply list_elem_of_In, in_map, list_elem_of_In, Hy. }
    eapply hoare_bind with
      (Q := fun b st =>
         b = false /\ session st = s0
         /\ (BtnDelete (thread_id x) ∉ widgets st)
         /\ forall y, y ∈ ths ->
              (BtnThread (thread_id y) ∉ widgets st)
              /\ (BtnDelete (thread_id y) ∉ widgets st)).
    { apply hoare_button. intros st Hst. pose proof Hst as [Hs Hf].
      split; [apply (Hf x); by left|]. split.
      { apply andb_false_intro2, bool_decide_eq_false. congruence. }
      split; [done|]. simpl. split.
      - apply not_elem_of_app. split; [apply (Hf x); by left|].
        apply not_elem_of_cons. split; [done|apply not_elem_of_nil].
      - apply (Hfresh st [BtnThread (thread_id x)] Hst).
        intros y Hy. specialize (Hother y Hy).
        split; apply not_elem_of_cons; (split; [congruence|apply not_elem_of_nil]). }
    intros pressed.
    eapply hoare_bind with
      (Q := fun _ st =>
         session st = s0
         /\ (BtnDelete (thread_id x) ∉ widgets st)
         /\ forall y, y ∈ ths ->
              (BtnThread (thread_id y) ∉ widgets st)
              /\ (BtnDelete (thread_id y) ∉ widgets st)).
    { apply hoare_when; [|by intros _ st [_ ?]].
      intros ->. by intros st [? _]. }
    intros ?.
    eapply hoare_bind with (Q := fun b st => b = false /\ fresh_for ths st).
    { apply hoare_button. intros st (Hs & Hd & Hf). split; [done|].
      split; [done|]. split; [done|]. simpl. intros y Hy.
      destruct (Hf y Hy) as [? ?]. specialize (Hother y Hy).
      split; apply not_elem_of_app;
        (split; [done|]); apply not_elem_of_cons;
        (split; [congruence|apply not_elem_of_nil]). }
    intros pressed'. apply hoare_when; [|by intros _ st [_ ?]].
    intros ->. by intros st [? _].
Qed.

(** The status line of the episodic section never raises. *)
Lemma status_total (ws : list button) E :
  hoare (drawn ws)
    (when (bool_decide (is_Some (s0 !! "episodic_orchestrator")))
       (o ← getattr "episodic_orchestrator";
        when (truthy o)
          (try_pass
             match o with
             | VObject _ => extern CGetSystemStatus (get_system_status B)
             | _ => raise (AttributeError "get_system_status")
             end)))
    (fun _ => drawn ws) E.
Proof.
  apply hoare_when; [intros [v Hv]%bool_decide_eq_true|done].
  eapply hoare_bind with (Q := fun _ => drawn ws).
  { apply hoare_getattr; [by intros|].
    intros st [Hs _] Hn. rewrite Hs, Hv in Hn. done. }
  intros o. apply hoare_when; [intros _|done].
  apply hoare_try_pass. destruct o; try (by apply hoare_raise).
  by apply hoare_extern.
Qed.

Lemma init_drawn (ws : list button) E :
  initialised s0 ->
  hoare (drawn ws) (initialize_demo_session B) (fun _ => drawn ws) E.
Proof.
  intros Hi st [Hs Hw]. rewrite init_noop; [done|]. by rewrite Hs.
Qed.

(** Lines 148-152 of [main]. *)
Lemma create_app_drawn (ws : list button) E :
  hoare (drawn ws)
    (try_except (extern (CCreateApp false) (create_app B false))
       (fun _ => log CLogWarning;; mret VNone))
    (fun _ => drawn ws) E.
Proof.
  eapply hoare_try_except
    with (E' := fun e st => is_Exception e = true /\ drawn ws st).
  - by apply hoare_extern.
  - intros e _. eapply hoare_bind with (Q := fun _ => drawn ws);
      [apply hoare_log; by intros st [_ ?]|intros ?; by apply hoare_ret].
  - intros e st He [He' _]. congruence.
Qed.

Lemma episodic_drawn (clicked : option button) E :
  clicked <> Some BtnExtract ->
  hoare (drawn []) (display_episodic_learning_section B clicked)
    (fun _ => drawn [BtnExtract]) E.
Proof.
  intros Hc. unfold display_episodic_learning_section.
  eapply hoare_bind
    with (Q := fun b st => b = false /\ drawn [BtnExtract] st).
  { apply hoare_button. intros st [Hs Hw]. rewrite Hw.
    split; [apply not_elem_of_nil|]. split; [|done].
    by apply bool_decide_eq_false. }
  intros pressed. apply hoare_assume. intros ->.
  eapply hoare_bind with (Q := fun _ => drawn [BtnExtract]);
    [by apply hoare_ret|].
  intros ?.
  eapply hoare_bind
    with (Q := fun b st =>
            b = bool_decide (is_Some (s0 !! "episodic_orchestrator"))
            /\ drawn [BtnExtract] st).
  { apply hoare_has_key. intros st [Hs Hw]. by rewrite Hs. }
  intros present. apply hoare_assume. intros ->. apply status_total.
Qed.

(** A click on New Task ends the run in [st.rerun()]. *)
Lemma new_task_main :
  initialised s0 ->
  hoare (fun st => session st = s0) (main B (Some BtnNewTask))
    (fun _ _ => False) (fun e _ => e = Rerun).
Proof.
  intros Hi. unfold main.
  eapply hoare_bind with (Q := fun _ => drawn []);
    [by apply hoare_new_run|intros ?].
  eapply hoare_bind; [by apply init_drawn|intros ?].
  eapply hoare_bind; [apply create_app_drawn|intros app].
  eapply hoare_bind with (Q := fun _ _ => False); [|by intros ? ? ?].
  unfold display_sidebar.
  eapply hoare_bind; [by apply episodic_drawn|intros ?].
  eapply hoare_bind with (Q := fun b _ => b = true).
  { apply hoare_button. intros st [Hs Hw]. rewrite Hw. split; [|done].
    apply not_elem_of_cons. split; [done|apply not_elem_of_nil]. }
  intros pressed.
  eapply hoare_bind with (Q := fun _ _ => False); [|by intros ? ? ?].
  apply hoare_when; [|by intros -> st ?].
  intros _. by apply hoare_raise.
Qed.

(** The run a click on the button of [tid] starts calls
    [load_conversation] for it. *)
Lemma select_main (tds : list thread_data) :
  initialised s0 ->
  s0 !! "thread_ids" = Some (VList (map VThread tds)) ->
  NoDup (map thread_id tds) ->
  tid ∈ map thread_id tds ->
  hoare (fun st => session st = s0) (main B (Some (BtnThread tid)))
    (fun _ => loaded) (fun _ => loaded).
Proof.
  intros Hi Hl Hnd Hin. unfold main.
  eapply hoare_bind with (Q := fun _ => drawn []);
    [by apply hoare_new_run|intros ?].
  eapply hoare_bind; [by apply init_drawn|intros ?].
  eapply hoare_bind; [apply create_app_drawn|intros app].
  eapply hoare_bind with (Q := fun _ => loaded);
    [|intros ?; apply hoare_stateless, stateless_show_messages].
  unfold display_sidebar.
  eapply hoare_bind; [by apply episodic_drawn|intros ?].
  eapply hoare_bind
    with (Q := fun b st => b = false /\ drawn [BtnExtract; BtnNewTask] st).
  { apply hoare_button. intros st [Hs Hw]. rewrite Hw.
    split; [|by split].
    apply not_elem_of_cons. split; [done|apply not_elem_of_nil]. }
  intros pressed. apply hoare_assume. intros ->.
  eapply hoare_bind with (Q := fun _ => drawn [BtnExtract; BtnNewTask]);
    [by apply hoare_ret|].
  intros ?. unfold display_conversation_list.
  eapply hoare_bind
    with (Q := fun v st => v = VList (map VThread tds)
                           /\ drawn [BtnExtract; BtnNewTask] st).
  { apply hoare_getattr.
    - intros st v [Hs Hw] Hv. rewrite Hs, Hl in Hv. split; [congruence|done].
    - intros st [Hs _] Hv. rewrite Hs, Hl in Hv. done. }
  intros tids. apply hoare_assume. intros ->.
  assert (Htruthy : truthy (VList (map VThread tds)) = true).
  { destruct tds; [by apply elem_of_nil in Hin|done]. }
  rewrite Htruthy. cbn [when reversed items].
  do 2 apply hoare_bind_ret. rewrite <- map_rev.
  eapply hoare_conseq; [apply (select_loop app (rev tds))| |done..].
  - rewrite map_rev. apply NoDup_ListNoDup, List.NoDup_rev.
    by apply NoDup_ListNoDup.
  - rewrite map_rev. apply list_elem_of_In, in_rev.
    rewrite rev_involutive. by apply list_elem_of_In.
  - intros st [Hs Hw]. split; [done|]. intros x _. rewrite Hw.
    split; apply not_elem_of_cons; (split; [done|]);
      apply not_elem_of_cons; (split; [done|apply not_elem_of_nil]).
Qed.

(** After the interaction the call is in the log. *)
Lemma select_interact (tds : list thread_data) (st : state W) :
  session st = s0 ->
  initialised s0 ->
  s0 !! "thread_ids" = Some (VList (map VThread tds)) ->
  NoDup (map thread_id tds) ->
  tid ∈ map thread_id tds ->
  loaded (snd (interact B (Some (BtnThread tid)) st)).
Proof.
  intros Hs Hi Hl Hnd Hin. unfold interact.
  pose proof (select_main tds Hi Hl Hnd Hin st Hs) as H1.
  destruct (main B (Some (BtnThread tid)) st) as [[a|e] st']; [done|].
  destruct e; try done.
  pose proof (keeps_main_logged (fun cs => CLoadConversation tid ∈ cs))
    as H2.
  specialize (H2 (fun cs c Hc => proj2 (elem_of_app cs [c] _) (or_introl Hc))
                 None st' H1).
  by destruct (main B None st') as [[a|e] st''].
Qed.

End Select.

End Interactions.

End ControllerFacts.

(** ** The current thread and the roster *)

Module RosterFacts.
Import Segmenter Script App Assertions ScriptFacts InitFacts ControllerFacts.

Section Roster.
Context {W : Type} `{CaseMap} (B : backend W).

Local Abbreviation rooted := (inv (W := W) (fun s _ => anchored s)).

(** [anchored] looks at the current thread and the roster alone. *)
Lemma anchored_eq (s s' : gmap string pyval) :
  s' !! "current_thread_id" = s !! "current_thread_id" ->
  s' !! "thread_ids" = s !! "thread_ids" ->
  anchored s -> anchored s'.
Proof.
  intros Hc Ht [Hn|[Hs Hr]]; [left; by rewrite Hc|right].
  split; [by rewrite Ht|]. unfold roster_ok.
  rewrite (roster_ids_eq s s' Ht), Hc. exact Hr.
Qed.

Lemma anchored_write (key : string) (v : pyval) (s : gmap string pyval) :
  key <> "current_thread_id" -> key <> "thread_ids" ->
  anchored s -> anchored (<[key := v]> s).
Proof. intros ? ?. apply anchored_eq; by rewrite lookup_insert_ne. Qed.

(** An initialised session that is anchored has its current thread in
    the roster. *)
Lemma anchored_sound (s : gmap string pyval) (cs : list call) :
  initialised s -> anchored s -> sound s cs.
Proof.
  intros Hi [Hn|[_ Hr]]; [|done].
  destruct (initialised_lookup s "current_thread_id" Hi) as [v Hv];
    [elem_dec|congruence].
Qed.

Lemma sound_anchored (s : gmap string pyval) (cs : list call) :
  sound s cs -> anchored s.
Proof.
  intros [Hi Hr]. right. split; [|done].
  apply (initialised_lookup s "thread_ids" Hi). elem_dec.
Qed.

Lemma last_elem {A} (l : list A) (x : A) : last l = Some x -> x ∈ l.
Proof.
  intros Hl. apply last_Some in Hl as [l' ->]. apply elem_of_app. right.
  by left.
Qed.

(** The current thread is an entry of the roster. *)
Lemma anchored_entry (s : gmap string pyval) (l : list pyval)
  (td : thread_data) :
  s !! "thread_ids" = Some (VList l) -> VThread td ∈ l ->
  s !! "current_thread_id" = Some (VStr (thread_id td)) ->
  anchored s.
Proof.
  intros Hl Hin Hc. right. split; [by rewrite Hl|]. intros _.
  exists (thread_id td). split; [done|]. by eapply roster_ids_elem.
Qed.

Lemma roster_ids_threads (s : gmap string pyval) (ids : list thread_data) :
  s !! "thread_ids" = Some (VList (map VThread ids)) ->
  roster_ids s = map thread_id ids.
Proof.
  intros Hl. unfold roster_ids. rewrite Hl. clear Hl.
  induction ids as [|x ids IH]; [done|]. cbn. by rewrite IH.
Qed.

Lemma roster_ids_falsy (s : gmap string pyval) (tids : pyval) :
  s !! "thread_ids" = Some tids -> truthy tids = false -> roster_ids s = [].
Proof.
  intros Hl Ht. unfold roster_ids. rewrite Hl.
  destruct tids as [| | |l| | | | |]; try done. by destruct l.
Qed.

Lemma keeps_rooted_setattr (key : string) (v : pyval) :
  key <> "current_thread_id" -> key <> "thread_ids" ->
  keeps rooted (unless_set key (setattr key v)).
Proof.
  intros ? ?. apply hoare_unless_set; [|done].
  apply hoare_setattr. intros st [Hst _]. by apply anchored_write.
Qed.

Lemma keeps_rooted_orchestrator : keeps rooted (init_orchestrator B).
Proof.
  unfold init_orchestrator. apply hoare_unless_set; [|done].
  eapply hoare_try_except with (E' := fun _ => rooted).
  - eapply hoare_bind with (Q := fun _ => rooted).
    + by apply hoare_extern; intros st w ? [Hst _].
    + intros o. apply hoare_setattr. intros st Hst. by apply anchored_write.
  - intros e _. eapply hoare_bind with (Q := fun _ => rooted).
    + by apply hoare_log.
    + intros ?. apply hoare_setattr. intros st Hst. by apply anchored_write.
  - done.
Qed.

Lemma keeps_rooted_compat : keeps rooted (init_compat (W := W)).
Proof.
  unfold init_compat, keeps.
  repeat (eapply hoare_bind with (Q := fun _ => rooted);
          [by apply keeps_rooted_setattr|intros ?]).
  by apply keeps_rooted_setattr.
Qed.

Lemma keeps_rooted_waiting : keeps rooted (init_waiting (W := W)).
Proof.
  unfold init_waiting, keeps.
  repeat (eapply hoare_bind with (Q := fun _ => rooted);
          [by apply keeps_rooted_setattr|intros ?]).
  by apply keeps_rooted_setattr.
Qed.

(** The roster is loaded only while there is none, and then there is no
    current thread either. *)
Lemma keeps_rooted_thread_ids : keeps rooted (init_thread_ids B).
Proof.
  unfold init_thread_ids, call_load_thread_ids.
  apply hoare_unless_set; [|done].
  eapply hoare_bind
    with (Q := fun _ st => session st !! "current_thread_id" = None).
  - eapply hoare_bind
      with (Q := fun _ st => session st !! "current_thread_id" = None).
    + apply hoare_extern.
      * intros st w a [[Hn|[[v Hv] _]] Ht]; [done|]. cbn in *. congruence.
      * intros st w e [Hst _]. done.
    + intros ids. by apply hoare_ret.
  - intros ids. apply hoare_setattr. intros st Hn. left.
    cbn. by rewrite lookup_insert_ne.
Qed.

(** Lines 78-100, however they end. *)
Lemma anchored_current_thread (st : state W) :
  load_contract B -> create_contract B ->
  anchored (session st) ->
  anchored (session (snd (init_current_thread B st))).
Proof.
  intros Hload Hcreate Ha. unfold init_current_thread.
  destruct (session st !! "current_thread_id") as [c|] eqn:Hc.
  { rewrite unless_set_present by (by eexists). done. }
  rewrite unless_set_absent by done.
  unfold mbind at 1, M_bind at 1, getattr.
  destruct (session st !! "thread_ids") as [tids|] eqn:Ht; [|by left].
  destruct (truthy tids) eqn:Htr.
  - (* a roster: its last entry *)
    assert (Hgarbage : forall recent,
              (forall td, recent <> VThread td) ->
              anchored (session (snd
                (try_except (load_recent B recent)
                   (fun _ => fallback B recent) st)))).
    { intros recent Hr.
      unfold try_except, load_recent, fallback, extern, log, mbind, M_bind.
      destruct (create_app B false (world st)) as [[app|e] w];
        destruct recent; try (by left); by destruct (Hr _ eq_refl). }
    destruct tids as [| |s|l| | | | |]; try (by left).
    + cbn [last_item]. destruct (last (list_ascii_of_string s)) as [ch|];
        [|by left].
      unfold mbind at 1, M_bind at 1. cbn [mret M_ret]. by apply Hgarbage.
    + cbn [last_item]. destruct (last l) as [recent|] eqn:Hlast; [|by left].
      unfold mbind at 1, M_bind at 1. cbn [mret M_ret].
      assert (Hd : (exists td, recent = VThread td)
                   \/ forall td, recent <> VThread td)
        by (destruct recent; try (by right); left; by eexists).
      destruct Hd as [[td ->]|Hno]; [|by apply Hgarbage].
      apply last_elem in Hlast.
      assert (Hfall : forall s w cs ws,
                s !! "thread_ids" = Some (VList l) ->
                anchored (session (snd
                  (fallback B (VThread td) (State s w cs ws))))).
      { intros s w cs ws Hs.
        unfold fallback, log, setattr, mbind, M_bind.
        cbn [thread_id_of mret M_ret session world calls widgets snd].
        apply (anchored_entry _ l td); [|done|]; by simplify_map_eq. }
      unfold try_except, load_recent, extern, call_load_conversation,
        mbind, M_bind.
      cbn [thread_id_of mret M_ret session world calls widgets].
      destruct (create_app B false (world st)) as [[app|e] w];
        cbn [is_Exception session world calls widgets].
      * pose proof (Hload (thread_id td) app (session st) w) as Hct.
        destruct (load_conversation B (thread_id td) app (session st) w)
          as [[[]|e] [s' w']]; destruct Hct as [Hother Hcur];
          cbn [is_Exception snd session].
        -- apply (anchored_entry _ l td); [|done..].
           rewrite Hother; [done|elem_dec].
        -- apply Hfall. rewrite Hother; [done|elem_dec].
      * by apply Hfall.
  - (* no roster: a new conversation *)
    unfold start_new_conversation, call_load_thread_ids, extern, setattr,
      mbind, M_bind.
    cbn [mret M_ret session world calls widgets].
    destruct (create_new_conversation B (world st)) as [[nc|e] w1] eqn:Hcr;
      cbn [session world calls widgets snd]; [|by left].
    destruct (load_thread_ids B w1) as [[ids|e] w2] eqn:Hld;
      cbn [session world calls widgets snd].
    + right. split; [by simplify_map_eq|]. intros _.
      exists (nc_thread_id nc). split; [by simplify_map_eq|].
      erewrite roster_ids_threads by (by simplify_map_eq).
      by eapply Hcreate.
    + right. split; [by simplify_map_eq|]. intros Hne. destruct Hne.
      eapply roster_ids_falsy; [|exact Htr]. by simplify_map_eq.
Qed.

Lemma keeps_rooted_current_thread :
  load_contract B -> create_contract B ->
  keeps rooted (init_current_thread B).
Proof.
  intros Hload Hcreate st Hst.
  pose proof (anchored_current_thread st Hload Hcreate Hst) as Ha.
  by destruct (init_current_thread B st) as [[a|e] st'].
Qed.

(** Initialisation keeps the session anchored however it ends, and a
    run that returns leaves it initialised with the current thread in the
    roster. *)
Lemma init_roots :
  load_contract B -> create_contract B ->
  hoare rooted (initialize_demo_session B)
    (fun _ => inv sound) (fun _ => rooted).
Proof.
  intros Hload Hcreate.
  assert (Hk : keeps rooted (initialize_demo_session B)).
  { unfold initialize_demo_session, bootstrap, keeps.
    eapply hoare_bind; [apply keeps_rooted_orchestrator|intros ?].
    eapply hoare_bind; [apply keeps_rooted_compat|intros ?].
    eapply hoare_bind; [|intros ?; apply keeps_rooted_waiting].
    eapply hoare_bind; [apply keeps_rooted_thread_ids|intros ?].
    by apply keeps_rooted_current_thread. }
  intros st Hst. specialize (Hk st Hst).
  pose proof (init_establishes B Hload st I) as Hi.
  destruct (initialize_demo_session B st) as [[[]|e] st']; [|done].
  by apply anchored_sound.
Qed.

(** What follows initialisation in [main]. *)
Lemma rest_sound (clicked : option button) :
  load_contract B ->
  keeps (inv sound)
    (app ← try_except (extern (CCreateApp false) (create_app B false))
                      (fun _ => log CLogWarning;; mret VNone);
     display_sidebar B clicked app;; show_messages).
Proof.
  intros Hload. unfold keeps.
  eapply hoare_bind with (Q := fun _ => inv sound).
  { eapply hoare_try_except with (E' := fun _ => inv sound).
    - by apply hoare_extern.
    - intros e _. eapply hoare_bind with (Q := fun _ => inv sound).
      + by apply hoare_log.
      + intros _. by apply hoare_ret.
    - done. }
  intros app. eapply hoare_bind.
  - apply keeps_sidebar; [by intros|].
    intros tid td app' s cs w l cur _ Hl Hin Htd _ _ Hs.
    by eapply sound_load.
  - intros ?. apply hoare_stateless, stateless_show_messages.
Qed.

Lemma main_roots (clicked : option button) :
  load_contract B -> create_contract B ->
  hoare rooted (main B clicked) (fun _ => inv sound) (fun _ => rooted).
Proof.
  intros Hload Hcreate. unfold main.
  eapply hoare_bind with (Q := fun _ => rooted); [by apply hoare_new_run|].
  intros ?. eapply hoare_bind; [by apply init_roots|]. intros ?.
  eapply hoare_conseq; [by apply rest_sound|done..|].
  intros e st. apply (sound_anchored _ (calls st)).
Qed.

Lemma interact_roots (clicked : option button) (st : state W) :
  load_contract B -> create_contract B ->
  anchored (session st) ->
  anchored (session (snd (interact B clicked st)))
  /\ forall ws, fst (interact B clicked st) = Return ws ->
       initialised (session (snd (interact B clicked st)))
       /\ roster_ok (session (snd (interact B clicked st))).
Proof.
  intros Hload Hcreate Ha. unfold interact.
  pose proof (main_roots clicked Hload Hcreate st Ha) as H1.
  destruct (main B clicked st) as [[ws|e] st'].
  { split; [exact (sound_anchored _ (calls st') H1)|]. by intros ? _. }
  assert (He : e = Rerun \/ e <> Rerun) by (destruct e; auto).
  destruct He as [->|He].
  - pose proof (main_roots None Hload Hcreate st' H1) as H2.
    destruct (main B None st') as [[ws|e] st''].
    + split; [exact (sound_anchored _ (calls st'') H2)|]. by intros ? _.
    + split; [done|]. by intros ws.
  - destruct e; try (by destruct He); (split; [exact H1|by intros ws]).
Qed.

End Roster.

End RosterFacts.

(** ** The session controller *)

Module SessionClaims.
Import Segmenter Script App Assertions ScriptFacts InitFacts ControllerFacts
  RosterFacts Fixtures.

(** The in-memory store keeps the contract of [load_conversation]. *)
Lemma store_load_contract : load_contract store_backend.
Proof.
  intros tid app s w. simpl. unfold store_load_conversation.
  destruct (histories w !! tid) as [ms|]; [|done].
  split; [|by simplify_map_eq].
  intros k Hk. unfold thread_fields in Hk.
  rewrite !lookup_insert_ne; [done|..]; intros <-; apply Hk; elem_dec.
Qed.

(** The in-memory store keeps the contract of
    [create_new_conversation]: the thread it creates is in the roster. *)
Lemma store_create_contract : create_contract store_backend.
Proof.
  intros w nc w1 ids w2 Hcr Hld. cbn in Hcr, Hld.
  unfold store_create_new_conversation in Hcr.
  injection Hcr as <- <-. injection Hld as <-. cbn.
  rewrite map_app. apply elem_of_app. right. by left.
Qed.

Lemma ready_initialised (waiting : bool) :
  initialised (ready_session waiting).
Proof. unfold initialised, init_fields. repeat constructor; by eexists. Qed.

Lemma ready_roster_ok (waiting : bool) : roster_ok (ready_session waiting).
Proof.
  intros _. exists "t2". split; [done|].
  assert (roster_ids (ready_session waiting) = ["t1"; "t2"]) as ->
    by reflexivity.
  elem_dec.
Qed.

(** C6, as amended.  When the roster is not empty and loading its most
    recent conversation fails ([create_app] or [load_conversation]
    raises), Bootstrap returns normally: [current_thread_id] is the id of
    the most recent roster entry, [messages] is exactly the welcome
    message, both processed-id sets are empty, the failure is logged, and
    the other fields are as the failed call left them. *)
Theorem bootstrap_fallback {W} (B : backend W) (st st1 st2 : state W)
  (l : list pyval) (td : thread_data) (e : N) :
  init_thread_ids B st = (Return tt, st1) ->
  session st1 !! "current_thread_id" = None ->
  session st1 !! "thread_ids" = Some (VList l) ->
  last l = Some (VThread td) ->
  load_recent B (VThread td) st1 = (Raise (Exception e), st2) ->
  exists st3,
    bootstrap B st = (Return tt, st3)
    /\ session st3 !! "current_thread_id" = Some (VStr (thread_id td))
    /\ session st3 !! "messages"
       = Some (VList [VMessage (get_welcome_message B)])
    /\ session st3 !! "processed_message_ids" = Some (VSet ∅)
    /\ session st3 !! "processed_tools_ids" = Some (VSet ∅)
    /\ (forall k, k ∉ thread_fields -> session st3 !! k = session st2 !! k)
    /\ calls st3 = calls st2 ++ [CLogError; CGetWelcomeMessage].
Proof.
  intros Hroster Hcur Hl Hlast Hload.
  unfold bootstrap. erewrite run_bind by exact Hroster.
  unfold init_current_thread. rewrite unless_set_absent by done.
  erewrite run_bind; [|unfold getattr; by rewrite Hl].
  assert (Ht : truthy (VList l) = true) by (by destruct l).
  rewrite Ht. cbn [last_item]. rewrite Hlast.
  erewrite run_bind by reflexivity.
  unfold try_except. rewrite Hload. cbn [is_Exception].
  eexists. split; [reflexivity|]. cbn [session calls].
  repeat split; try (by simplify_map_eq).
  - intros k Hk. unfold thread_fields in Hk.
    rewrite !lookup_insert_ne; [done|..]; intros <-; apply Hk; elem_dec.
  - by rewrite <- !app_assoc.
Qed.

(** A roster entry whose history cannot be loaded: Bootstrap falls back
    to it with the welcome message. *)
Lemma bootstrap_fallback_witness :
  exists st3,
    bootstrap store_backend (State ∅ lost_history [] []) = (Return tt, st3)
    /\ session st3 !! "current_thread_id" = Some (VStr "t1")
    /\ session st3 !! "messages" = Some (VList [VMessage welcome])
    /\ session st3 !! "processed_message_ids" = Some (VSet ∅)
    /\ session st3 !! "processed_tools_ids" = Some (VSet ∅).
Proof.
  destruct (bootstrap_fallback store_backend
              (State ∅ lost_history [] [])
              (State {["thread_ids" := VList [VThread t1]]} lost_history
                 [CLoadThreadIds] [])
              (State {["thread_ids" := VList [VThread t1]]} lost_history
                 [CLoadThreadIds; CCreateApp false; CLoadConversation "t1"] [])
              [VThread t1] t1 404)
    as (st3 & H1 & H2 & H3 & H4 & H5 & _); try reflexivity.
  exists st3. repeat split; assumption.
Defined.

(** C6 as stated fails when the roster itself cannot be loaded, and when
    the roster is empty and no conversation can be created: the
    exception leaves [initialize_demo_session] and [main], and no
    current thread is assigned. *)
Lemma bootstrap_unguarded_calls :
  let down := bootstrap broken_backend (State ∅ tt [] []) in
  let empty := bootstrap readonly_backend (State ∅ tt [] []) in
  fst down = Raise (Exception 1)
  /\ session (snd down) !! "current_thread_id" = None
  /\ calls (snd down) = [CLoadThreadIds]
  /\ fst empty = Raise (Exception 1)
  /\ session (snd empty) !! "current_thread_id" = None
  /\ calls (snd empty) = [CLoadThreadIds; CCreateNewConversation]
  /\ fst (main broken_backend None (State ∅ tt [] []))
     = Raise (Exception 1).
Proof. by repeat split. Qed.

(** C7, as amended.  New Task is always there to be clicked, and a click
    on it only reruns the script: the run ends in [st.rerun()], no
    conversation is created or loaded, and the session (current thread,
    roster, messages) is after the interaction what it was before. *)
Theorem new_task_only_reruns `{CaseMap} {W} (B : backend W) (st : state W) :
  initialised (session st) ->
  fst (main B (Some BtnNewTask) st) = Raise Rerun
  /\ session (snd (interact B (Some BtnNewTask) st)) = session st
  /\ exists new,
       calls (snd (interact B (Some BtnNewTask) st)) = calls st ++ new
       /\ Forall (fun c => is_transition_call c = false) new.
Proof.
  intros Hi. split.
  - pose proof (new_task_main B (session st) Hi st eq_refl) as Hm.
    by destruct (main B (Some BtnNewTask) st) as [[a|e] st']; [|subst e].
  - by apply interact_quiet.
Qed.

Lemma new_task_only_reruns_witness :
  fst (main store_backend (Some BtnNewTask) (ready false)) = Raise Rerun
  /\ session (snd (interact store_backend (Some BtnNewTask) (ready false)))
     = ready_session false.
Proof.
  pose proof (new_task_only_reruns (H := ascii_case) store_backend
                (ready false) (ready_initialised false)) as (H1 & H2 & _).
  split; [exact H1|exact H2].
Defined.

(** C7 as stated fails: after New Task the roster has the two entries it
    had, the current thread is the one it was, and
    [create_new_conversation] has not been called. *)
Lemma new_task_creates_nothing :
  let after := snd (interact store_backend (Some BtnNewTask) (ready false)) in
  roster_ids (session after) = ["t1"; "t2"]
  /\ roster_ids (ready_session false) = ["t1"; "t2"]
  /\ session after !! "current_thread_id" = Some (VStr "t2")
  /\ threads (world after) = [t1; t2]
  /\ calls after
     = [CCreateApp false; CGetSystemStatus; CCreateApp false;
        CGetSystemStatus].
Proof. by repeat split. Qed.




(** C9, as amended.  [waiting_for_approval] is not consulted by the
    sidebar.  With the flag true, a click on the button of a roster entry
    that is not current calls [load_conversation] for it; New Task and
    Delete leave the session as it was, as they do whatever the flag. *)
Theorem approval_flag_not_consulted `{CaseMap} {W} (B : backend W)
  (st : state W) (tds : list thread_data) (tid : string) (cur : pyval) :
  session st !! "waiting_for_approval" = Some (VBool true) ->
  initialised (session st) ->
  session st !! "thread_ids" = Some (VList (map VThread tds)) ->
  NoDup (map thread_id tds) ->
  tid ∈ map thread_id tds ->
  session st !! "current_thread_id" = Some cur ->
  eq_str tid cur = false ->
  CLoadConversation tid
    ∈ calls (snd (interact B (Some (BtnThread tid)) st))
  /\ session (snd (interact B (Some BtnNewTask) st)) = session st
  /\ forall x,
       session (snd (interact B (Some (BtnDelete x)) st)) = session st.
Proof.
  intros _ Hi Hl Hnd Hin Hcur Hne. split.
  - by eapply (select_interact B tid (session st) cur).
  - split; [|intros x]; by apply interact_quiet.
Qed.

Lemma approval_flag_not_consulted_witness :
  CLoadConversation "t1"
    ∈ calls (snd (interact store_backend (Some (BtnThread "t1"))
                    (ready true))).
Proof.
  refine (proj1 (approval_flag_not_consulted (H := ascii_case) store_backend
                   (ready true) [t1; t2] "t1" (VStr "t2") _ _ _ _ _ _ _)).
  - reflexivity.
  - apply ready_initialised.
  - reflexivity.
  - elem_dec.
  - elem_dec.
  - reflexivity.
  - reflexivity.
Defined.

(** C9 as stated fails: with the flag true, a Select is started and
    carried out; [load_conversation] is called, the current thread and
    the messages change, and nothing about waiting is drawn. *)
Lemma select_while_waiting :
  let r := interact store_backend (Some (BtnThread "t1")) (ready true) in
  ready_session true !! "waiting_for_approval" = Some (VBool true)
  /\ ready_session true !! "current_thread_id" = Some (VStr "t2")
  /\ calls (snd r)
     = [CCreateApp false; CGetSystemStatus; CLoadConversation "t1";
        CCreateApp false; CGetSystemStatus]
  /\ session (snd r) !! "current_thread_id" = Some (VStr "t1")
  /\ session (snd r) !! "messages"
     = Some (VList [VMessage welcome; VMessage hello])
  /\ fst r
     = Return [ChatMessage "assistant" [Markdown (lit "Welcome")];
               ChatMessage "user" [Markdown (lit "hello")]].
Proof. by repeat split. Qed.

(** C10.  Every write of [initialize_demo_session] stands under a
    membership test.  With every tested field in place a further run
    returns at once, having called no collaborator and changed nothing;
    with the current thread in place it leaves every field that is set as
    it is and only adds missing ones; and, when [load_conversation] keeps
    its contract, a run after one that returned does nothing. *)
Theorem initialisation_idempotent {W} (B : backend W) (st : state W) :
  (initialised (session st) ->
   initialize_demo_session B st = (Return tt, st))
  /\ (is_Some (session st !! "current_thread_id") ->
      session st ⊆ session (snd (initialize_demo_session B st)))
  /\ (load_contract B ->
      forall st',
        initialize_demo_session B st = (Return tt, st') ->
        initialize_demo_session B st' = (Return tt, st')).
Proof.
  split; [apply init_noop|]. split; [apply init_extends|].
  intros Hct st'. by apply init_twice.
Qed.

(** A rerender of the initialised session changes nothing, and neither
    does a second run on a fresh session over the store. *)
Lemma initialisation_idempotent_witness :
  initialize_demo_session store_backend (ready false)
  = (Return tt, ready false)
  /\ forall st',
       initialize_demo_session store_backend (State ∅ two_threads [] [])
       = (Return tt, st') ->
       initialize_demo_session store_backend st' = (Return tt, st').
Proof.
  split.
  - exact (proj1 (initialisation_idempotent store_backend (ready false))
             (ready_initialised false)).
  - exact (proj2 (proj2 (initialisation_idempotent store_backend
                           (State ∅ two_threads [] [])))
             store_load_contract).
Defined.

End SessionClaims.

(** * Further properties *)

(** ** Python text, continued *)

Module PyStrProps.
Import PyStrFacts.

Lemma lstrip_head (s : str) (c : N) :
  head (lstrip s) = Some c -> is_space c = false.
Proof.
  induction s as [|d s IH]; simpl; [done|].
  destruct (is_space d) eqn:Hd; [done|]. simpl. congruence.
Qed.

Lemma lstrip_suffix (s : str) : lstrip s `suffix_of` s.
Proof.
  induction s as [|d s IH]; simpl; [done|].
  destruct (is_space d); [by apply suffix_cons_r|done].
Qed.

Lemma rstrip_prefix (s : str) : rstrip s `prefix_of` s.
Proof.
  unfold rstrip. destruct (lstrip_suffix (rev s)) as [k Hk].
  exists (rev k). apply (f_equal (@rev N)) in Hk.
  by rewrite rev_involutive, rev_app_distr in Hk.
Qed.

Lemma last_rev {A} (l : list A) : last (rev l) = head l.
Proof. destruct l as [|x l]; [done|]. simpl. by rewrite last_snoc. Qed.

Lemma rstrip_last (s : str) (c : N) :
  last (rstrip s) = Some c -> is_space c = false.
Proof. unfold rstrip. rewrite last_rev. apply lstrip_head. Qed.

(** What [strip] returns neither starts nor ends with whitespace. *)
Lemma strip_head (s : str) (c : N) :
  head (strip s) = Some c -> is_space c = false.
Proof.
  unfold strip. intros Hc. destruct (rstrip_prefix (lstrip s)) as [k Hk].
  apply (lstrip_head s). rewrite Hk.
  destruct (rstrip (lstrip s)); [done|exact Hc].
Qed.

Lemma strip_last (s : str) (c : N) :
  last (strip s) = Some c -> is_space c = false.
Proof. apply rstrip_last. Qed.

Lemma lstrip_nonempty (s : str) (c : N) :
  c ∈ s -> is_space c = false -> exists d, d ∈ lstrip s /\ is_space d = false.
Proof.
  intros Hin Hc. induction s as [|d s IH]; [by apply elem_of_nil in Hin|].
  simpl. destruct (is_space d) eqn:Hd.
  - apply elem_of_cons in Hin as [->|Hin]; [congruence|by apply IH].
  - exists c. by split.
Qed.

(** Text with a character that is no whitespace does not strip away. *)
Lemma strip_nonempty (s : str) (c : N) :
  c ∈ s -> is_space c = false -> strip s <> [].
Proof.
  intros Hin Hc. unfold strip, rstrip.
  destruct (lstrip_nonempty s c Hin Hc) as (d & Hd & Hsp).
  destruct (lstrip_nonempty (rev (lstrip s)) d) as (e & He & _); [|done|].
  { apply list_elem_of_In, in_rev. rewrite rev_involutive.
    by apply list_elem_of_In. }
  intros Hnil. apply (f_equal (@rev N)) in Hnil.
  rewrite rev_involutive in Hnil. simpl in Hnil. rewrite Hnil in He.
  by apply elem_of_nil in He.
Qed.

(** [split] distributes over a newline between two texts. *)
Lemma split_nl_app (a b : str) :
  split_nl (a ++ NL :: b) = split_nl a ++ split_nl b.
Proof.
  induction a as [|c a IH]; [done|]. simpl.
  destruct (c =? NL); [by rewrite IH|].
  rewrite IH. destruct (split_nl a) as [|l ls] eqn:Ha; [|done].
  exfalso. clear -Ha. destruct a as [|d a]; [done|]. simpl in Ha.
  destruct (d =? NL); [done|]. by destruct (split_nl a).
Qed.

End PyStrProps.

(** ** The segmenter, continued *)

Module SegmenterProps.
Import Segmenter PyStrFacts PyStrProps SegmenterFacts Fixtures.

Section Props.
Context `{CaseMap}.
Variables progress_markers final_markers : list str.

Local Abbreviation next_section :=
  (Segmenter.next_section progress_markers final_markers).
Local Abbreviation step := (Segmenter.step progress_markers final_markers).
Local Abbreviation scan := (Segmenter.scan progress_markers final_markers).
Local Abbreviation accumulate :=
  (Segmenter.accumulate progress_markers final_markers).
Local Abbreviation segment :=
  (Segmenter.segment progress_markers final_markers).

(** X1.  Whatever the content, at most two texts are displayed, the
    final one before the progress one, and a text that is displayed is
    not empty and neither starts nor ends with whitespace. *)
Theorem segments_shape (content : str) :
  map fst (segment content) `sublist_of` [final; progress]
  /\ Forall (fun seg =>
       snd seg <> []
       /\ (forall c, head (snd seg) = Some c -> is_space c = false)
       /\ (forall c, last (snd seg) = Some c -> is_space c = false))
     (segment content).
Proof.
  unfold Segmenter.segment, emit.
  set (f := strip (final_content (accumulate content))).
  set (p := strip (progress_content (accumulate content))).
  assert (Hf : forall c, head f = Some c -> is_space c = false)
    by apply strip_head.
  assert (Hf' : forall c, last f = Some c -> is_space c = false)
    by apply strip_last.
  assert (Hp : forall c, head p = Some c -> is_space c = false)
    by apply strip_head.
  assert (Hp' : forall c, last p = Some c -> is_space c = false)
    by apply strip_last.
  clearbody f p.
  destruct f as [|cf f], p as [|cp p]; simpl; split;
    repeat constructor; try done.
Qed.

(** The loop over a text continued after a newline is the loop over the
    first part, then over the second. *)
Lemma accumulate_app (a b : str) :
  accumulate (a ++ NL :: b) = scan (accumulate a) (split_nl b).
Proof.
  unfold Segmenter.accumulate, Segmenter.scan.
  by rewrite split_nl_app, fold_left_app.
Qed.

Lemma scan_prefix (lines : list str) (b : buffers) :
  final_content b `prefix_of` final_content (scan b lines)
  /\ progress_content b `prefix_of` progress_content (scan b lines).
Proof.
  destruct (scan_partition progress_markers final_markers lines b)
    as (fl & pl & -> & -> & _).
  split; by eexists.
Qed.

(** X2.  Text added to a message after a newline does not change what
    the lines before it were given to: both buffers of the shorter
    message are prefixes of the buffers of the longer one, and the loop
    goes on from the section the shorter message ended in. *)
Theorem appending_keeps_buffers (a b : str) :
  accumulate (a ++ NL :: b) = scan (accumulate a) (split_nl b)
  /\ final_content (accumulate a)
     `prefix_of` final_content (accumulate (a ++ NL :: b))
  /\ progress_content (accumulate a)
     `prefix_of` progress_content (accumulate (a ++ NL :: b)).
Proof.
  split; [apply accumulate_app|]. rewrite accumulate_app. apply scan_prefix.
Qed.

(** While no line switches to final, everything goes to the progress
    buffer. *)
Lemma scan_all_progress (lines : list str) (b : buffers) :
  current_section b = progress ->
  Forall (fun l => bold_delimited l
                   && negb (any_in progress_markers (upper l))
                   && any_in final_markers (upper l) = false) lines ->
  current_section (scan b lines) = progress
  /\ final_content (scan b lines) = final_content b
  /\ progress_content (scan b lines) = progress_content b ++ unlines lines.
Proof.
  revert b. induction lines as [|l lines IH]; intros b Hb Hl.
  - simpl. by rewrite app_nil_r.
  - inversion Hl as [|? ? Hhd Htl]; subst. rewrite scan_cons.
    assert (Hn : next_section (current_section b) l = progress).
    { unfold Segmenter.next_section. rewrite Hb.
      destruct (bold_delimited l); [|done].
      destruct (any_in progress_markers (upper l)); [done|].
      simpl in Hhd. by rewrite Hhd. }
    destruct (IH (step b l)) as (Hc & Hf & Hp); [|done|].
    + by rewrite step_section.
    + rewrite Hc, Hf, Hp, unlines_cons.
      pose proof (step_buffers progress_markers final_markers b l) as Hs.
      rewrite Hn in Hs. destruct Hs as [-> ->].
      split; [done|]. split; [done|]. by rewrite <- !app_assoc.
Qed.

(** X3.  A message that opens with the header of a progress agent and
    has no header of a final agent after it is displayed in the expander
    alone: the one segment is the progress segment, holding the whole
    stripped message. *)
Theorem progress_only (content first : str) (rest : list str) :
  split_nl content = first :: rest ->
  bold_delimited first = true ->
  any_in progress_markers (upper first) = true ->
  Forall (fun l => bold_delimited l
                   && negb (any_in progress_markers (upper l))
                   && any_in final_markers (upper l) = false) rest ->
  final_content (accumulate content) = []
  /\ segment content = [(progress, strip content)].
Proof.
  intros Hsplit Hb Hp Hrest.
  assert (Hstep : next_section final first = progress).
  { unfold Segmenter.next_section. by rewrite Hb, Hp. }
  assert (Hacc : accumulate content = scan (step init first) rest).
  { unfold Segmenter.accumulate. by rewrite Hsplit. }
  destruct (scan_all_progress rest (step init first)) as (Hc & Hf & Hpc);
    [by rewrite step_section|done|].
  pose proof (step_buffers progress_markers final_markers init first) as Hs.
  cbn [current_section init] in Hs. rewrite Hstep in Hs.
  destruct Hs as [Hs1 Hs2]. rewrite Hs2 in Hf. rewrite Hs1 in Hpc.
  cbn [progress_content final_content init app] in Hf, Hpc.
  assert (Hprog : progress_content (accumulate content) = content ++ [NL]).
  { pose proof (unlines_split_nl content) as Hu.
    rewrite Hsplit, unlines_cons in Hu.
    rewrite Hacc, Hpc, <- Hu. by rewrite <- app_assoc. }
  split; [by rewrite Hacc|].
  unfold Segmenter.segment, emit. rewrite Hprog.
  rewrite Hacc, Hf. change (strip []) with (@nil N). cbn [nonempty app].
  rewrite (strip_snoc_space _ _ is_space_NL).
  destruct (strip content) as [|c s] eqn:Hstrip; [|done].
  exfalso. revert Hstrip.
  assert (H42 : (42 : N) ∈ content).
  { unfold bold_delimited in Hb. apply andb_prop in Hb as [Hb _].
    change BOLD with [42; 42] in Hb.
    apply startswith_head in Hb as [r ->].
    pose proof (unlines_split_nl content) as Hu.
    rewrite Hsplit, unlines_cons in Hu.
    destruct content as [|c content]; [done|].
    injection Hu as <- _. by left. }
  by apply (strip_nonempty content 42).
Qed.

Lemma ascii_upper_star (c : N) : (42 =? ascii_upper c) = (42 =? c).
Proof.
  unfold ascii_upper.
  destruct ((97 <=? c) && (c <=? 122)) eqn:Hr; [|done].
  apply andb_prop in Hr as [H1 H2].
  apply N.leb_le in H1. apply N.leb_le in H2.
  destruct (N.eqb_spec 42 (c - 32)), (N.eqb_spec 42 c); lia.
Qed.

Lemma startswith_bold_upper (l : str) :
  startswith (map ascii_upper l) [42; 42] = startswith l [42; 42].
Proof.
  destruct l as [|a [|b l]]; cbn [map startswith];
    rewrite ?ascii_upper_star; [done..|].
  by destruct l.
Qed.

(** Upper-casing ASCII text leaves the bold delimiters where they are. *)
Lemma bold_delimited_upper (l : str) :
  bold_delimited (map ascii_upper l) = bold_delimited l.
Proof.
  unfold bold_delimited, endswith. change BOLD with [42; 42].
  change (rev [42; 42]) with [42; 42].
  by rewrite <- map_rev, !startswith_bold_upper.
Qed.

(** X4.  The header test does not see the case of ASCII letters: two
    ASCII lines that differ in case only leave the loop in the same
    section. *)
Theorem header_case_insensitive (b : buffers) (l1 l2 : str) :
  is_ascii l1 = true -> is_ascii l2 = true ->
  map ascii_upper l1 = map ascii_upper l2 ->
  current_section (step b l1) = current_section (step b l2).
Proof.
  intros H1 H2 Heq. rewrite !step_section. unfold Segmenter.next_section.
  rewrite (upper_ascii l1 H1), (upper_ascii l2 H2).
  rewrite <- (bold_delimited_upper l1), <- (bold_delimited_upper l2).
  by rewrite Heq.
Qed.

End Props.

(** A message of two progress agents is shown in the expander alone. *)
Lemma progress_only_witness :
  segment PROGRESS_AGENTS FINAL_AGENTS
    (join_nl [lit "**SUPERVISOR**"; lit "thinking...";
              lit "**DATA_AGENT**"; lit "42 rows"])
  = [(progress,
      join_nl [lit "**SUPERVISOR**"; lit "thinking...";
               lit "**DATA_AGENT**"; lit "42 rows"])].
Proof.
  refine (proj2 (progress_only (H := ascii_case) PROGRESS_AGENTS FINAL_AGENTS
                   _ (lit "**SUPERVISOR**")
                   [lit "thinking..."; lit "**DATA_AGENT**"; lit "42 rows"]
                   _ _ _ _)).
  - reflexivity.
  - reflexivity.
  - reflexivity.
  - by repeat constructor.
Defined.

(** The header of the supervisor in lower case switches to progress as
    the one in upper case does. *)
Lemma header_case_insensitive_witness :
  current_section
    (step PROGRESS_AGENTS FINAL_AGENTS init (lit "**supervisor**"))
  = current_section
      (step PROGRESS_AGENTS FINAL_AGENTS init (lit "**SUPERVISOR**")).
Proof.
  apply (header_case_insensitive (H := ascii_case)); reflexivity.
Defined.

End SegmenterProps.

(** ** Session initialisation, continued *)

Module InitProps.
Import Script App Assertions Fixtures ScriptFacts InitFacts Defaults.

Section Props.
Context {W : Type} (B : backend W).

(** A guarded write is a union in which the session wins. *)
Lemma guarded_write_union (key : string) (v : pyval) (st : state W) :
  unless_set key (setattr key v) st
  = (Return tt,
     State (session st ∪ {[key := v]}) (world st) (calls st) (widgets st)).
Proof.
  destruct (session st !! key) as [x|] eqn:Hk.
  - rewrite unless_set_present by (by eexists). f_equal.
    assert (Hs : session st ∪ {[key := v]} = session st).
    { apply map_eq. intros k. rewrite lookup_union.
      destruct (decide (k = key)) as [->|Hne].
      - by rewrite Hk, lookup_singleton_eq.
      - rewrite lookup_singleton_ne by done. by destruct (session st !! k). }
    rewrite Hs. by destruct st.
  - rewrite unless_set_absent by done. unfold setattr.
    by rewrite insert_union_singleton_r.
Qed.

(** X5.  The two blocks of guarded writes of [initialize_demo_session]
    (the compatibility fields of lines 44-71, the waiting state of lines
    103-108) return, call no collaborator and draw nothing; the session
    after them is the union of the session before with the table of
    defaults, in which every field that was set keeps its value. *)
Theorem guarded_defaults (st : state W) :
  init_compat st
  = (Return tt,
     State (session st ∪ list_to_map COMPAT_DEFAULTS) (world st) (calls st)
       (widgets st))
  /\ init_waiting st
     = (Return tt,
        State (session st ∪ list_to_map WAITING_DEFAULTS) (world st)
          (calls st) (widgets st)).
Proof.
  split.
  - unfold init_compat.
    repeat (erewrite run_bind by apply guarded_write_union).
    rewrite guarded_write_union. cbn [session world calls widgets].
    match goal with
    | |- (_, State ?a _ _ _) = (_, State ?b _ _ _) =>
        assert (Hs : a = b); [|by rewrite Hs]
    end.
    rewrite <- !(assoc_L (∪)). by f_equal.
  - unfold init_waiting.
    repeat (erewrite run_bind by apply guarded_write_union).
    rewrite guarded_write_union. cbn [session world calls widgets].
    match goal with
    | |- (_, State ?a _ _ _) = (_, State ?b _ _ _) =>
        assert (Hs : a = b); [|by rewrite Hs]
    end.
    rewrite <- !(assoc_L (∪)). by f_equal.
Qed.

(** X6.  Lines 36-42 never raise.  When [episodic_orchestrator] is set
    nothing is called and nothing changes; when it is not,
    [get_orchestrator] is called once and the field is set to what it
    returned, or to [None] with a warning logged when it raised.  No other
    field is written. *)
Theorem orchestrator_failure_absorbed (st : state W) :
  fst (init_orchestrator B st) = Return tt
  /\ session (snd (init_orchestrator B st))
     = match session st !! "episodic_orchestrator" with
       | Some _ => session st
       | None =>
           <["episodic_orchestrator" :=
               match fst (get_orchestrator B (world st)) with
               | Ok o => o
               | Fail _ => VNone
               end]> (session st)
       end
  /\ calls (snd (init_orchestrator B st))
     = calls st
       ++ match session st !! "episodic_orchestrator" with
          | Some _ => []
          | None =>
              CGetOrchestrator
              :: match fst (get_orchestrator B (world st)) with
                 | Ok _ => []
                 | Fail _ => [CLogWarning]
                 end
          end.
Proof.
  unfold init_orchestrator.
  destruct (session st !! "episodic_orchestrator") as [o|] eqn:Ho.
  - rewrite unless_set_present by (by eexists). by rewrite app_nil_r.
  - rewrite unless_set_absent by done.
    unfold try_except, extern, log, setattr, mbind, M_bind.
    destruct (get_orchestrator B (world st)) as [[o|e] w];
      cbn [fst snd session world calls widgets is_Exception]; [done|].
    by rewrite <- app_assoc.
Qed.

(** X7.  With no current thread and a roster whose last entry is a
    thread, lines 78-91 return whatever [create_app] and
    [load_conversation] do: the only conversation loaded is the most
    recent one, no conversation is created, and besides these two calls
    only the error log and the welcome message are reached. *)
Theorem bootstrap_loads_most_recent (st : state W) (l : list pyval)
  (td : thread_data) :
  session st !! "current_thread_id" = None ->
  session st !! "thread_ids" = Some (VList l) ->
  last l = Some (VThread td) ->
  fst (init_current_thread B st) = Return tt
  /\ exists new,
       calls (snd (init_current_thread B st)) = calls st ++ new
       /\ Forall (fun c => c ∈ [CCreateApp false;
                                CLoadConversation (thread_id td);
                                CLogError; CGetWelcomeMessage]) new.
Proof.
  intros Hcur Hl Hlast. unfold init_current_thread.
  rewrite unless_set_absent by done.
  erewrite run_bind; [|unfold getattr; by rewrite Hl].
  assert (Ht : truthy (VList l) = true) by (by destruct l).
  rewrite Ht. cbn [last_item]. rewrite Hlast.
  erewrite run_bind by reflexivity.
  unfold try_except, load_recent, fallback, extern, log, setattr,
    call_load_conversation, mbind, M_bind.
  cbn [thread_id_of mret M_ret session world calls widgets].
  destruct (create_app B false (world st)) as [[app|e] w];
    cbn [is_Exception session world calls widgets fst snd].
  - destruct (load_conversation B (thread_id td) app (session st) w)
      as [[[]|e] [s' w']];
      cbn [is_Exception session world calls widgets fst snd].
    + split; [done|]. eexists. rewrite <- app_assoc. split; [done|].
      repeat constructor; elem_dec.
    + split; [done|]. eexists. rewrite <- !app_assoc. split; [done|].
      repeat constructor; elem_dec.
  - split; [done|]. eexists. rewrite <- !app_assoc. split; [done|].
    repeat constructor; elem_dec.
Qed.

End Props.

(** Over the store with two threads the most recent one, [t2], is
    loaded. *)
Lemma bootstrap_loads_most_recent_witness :
  let st := State {["thread_ids" := VList [VThread t1; VThread t2]]}
              two_threads [] [] in
  fst (init_current_thread store_backend st) = Return tt
  /\ calls (snd (init_current_thread store_backend st))
     = [CCreateApp false; CLoadConversation "t2"].
Proof.
  split; [|reflexivity].
  refine (proj1 (bootstrap_loads_most_recent store_backend
                   (State {["thread_ids" := VList [VThread t1; VThread t2]]}
                      two_threads [] [])
                   [VThread t1; VThread t2] t2 _ _ _)); reflexivity.
Defined.

End InitProps.

(** ** The header, the labels and the learning controls *)

Module ComponentsProps.
Import Script App Components Fixtures.

Lemma list_ind3 {A} (P : list A -> Prop) :
  P [] -> (forall a, P [a]) -> (forall a b, P [a; b]) ->
  (forall a b c l, P l -> P (a :: b :: c :: l)) ->
  forall l, P l.
Proof.
  intros H0 H1 H2 H3.
  assert (H : forall l, P l /\ (forall a, P (a :: l))
                        /\ forall a b, P (a :: b :: l)).
  { induction l as [|c l (IH0 & IH1 & IH2)]; [by repeat split|].
    split; [apply IH1|]. split; [intros a; apply IH2|].
    intros a b. by apply H3. }
  intros l. apply H.
Qed.

(** The test vectors of RFC 4648 and one with the last two characters of
    the alphabet. *)
Lemma b64encode_rfc4648 :
  b64encode (lit "f") = lit "Zg==" /\ b64encode (lit "fo") = lit "Zm8="
  /\ b64encode (lit "foo") = lit "Zm9v"
  /\ b64encode (lit "foob") = lit "Zm9vYg=="
  /\ b64encode (lit "fooba") = lit "Zm9vYmE="
  /\ b64encode (lit "foobar") = lit "Zm9vYmFy"
  /\ b64encode [251; 255; 191] = lit "+/+/".
Proof. by repeat split. Qed.

(** The six-bit groups of bytes are below 64. *)
Lemma b64_index (a b : N) :
  a < 256 -> b < 256 ->
  a / 4 < 64 /\ a mod 4 * 16 + b / 16 < 64 /\ a mod 16 * 4 + b / 64 < 64
  /\ a mod 64 < 64 /\ a mod 4 * 16 < 64 /\ a mod 16 * 4 < 64.
Proof.
  intros Ha Hb.
  assert (a / 4 < 64) by (apply N.Div0.div_lt_upper_bound; lia).
  assert (b / 16 < 16) by (apply N.Div0.div_lt_upper_bound; lia).
  assert (b / 64 < 4) by (apply N.Div0.div_lt_upper_bound; lia).
  assert (a mod 4 < 4) by (by apply N.mod_lt).
  assert (a mod 16 < 16) by (by apply N.mod_lt).
  assert (a mod 64 < 64) by (by apply N.mod_lt).
  lia.
Qed.

Lemma b64_char_alphabet (i : N) :
  i < 64 -> b64_char i ∈ B64_PAD :: B64_ALPHABET.
Proof.
  intros Hi. right. unfold b64_char. apply list_elem_of_In, nth_In.
  change (length B64_ALPHABET) with 64%nat. lia.
Qed.

Lemma b64encode_chars (data : list N) :
  Forall (fun b => b < 256) data ->
  Forall (fun c => c ∈ B64_PAD :: B64_ALPHABET) (b64encode data).
Proof.
  induction data as [|a|a b|a b c data IH] using list_ind3; intros Hd.
  - constructor.
  - apply Forall_cons in Hd as [Ha _].
    destruct (b64_index a a Ha Ha) as (? & ? & ? & ? & ? & ?).
    cbn [b64encode]. repeat (apply Forall_cons; split);
      try (by apply Forall_nil_2); try (by left);
      by apply b64_char_alphabet.
  - apply Forall_cons in Hd as [Ha Hd]. apply Forall_cons in Hd as [Hb _].
    destruct (b64_index a b Ha Hb) as (? & ? & ? & ? & ? & ?).
    destruct (b64_index b b Hb Hb) as (? & ? & ? & ? & ? & ?).
    cbn [b64encode]. repeat (apply Forall_cons; split);
      try (by apply Forall_nil_2); try (by left);
      by apply b64_char_alphabet.
  - apply Forall_cons in Hd as [Ha Hd]. apply Forall_cons in Hd as [Hb Hd].
    apply Forall_cons in Hd as [Hc Hd].
    destruct (b64_index a b Ha Hb) as (? & ? & ? & ? & ? & ?).
    destruct (b64_index b c Hb Hc) as (? & ? & ? & ? & ? & ?).
    destruct (b64_index c c Hc Hc) as (? & ? & ? & ? & ? & ?).
    cbn [b64encode]. repeat (apply Forall_cons; split); try by apply IH.
    all: by apply b64_char_alphabet.
Qed.

Lemma b64encode_length (data : list N) :
  length (b64encode data) = (4 * ((length data + 2) / 3))%nat.
Proof.
  induction data as [|a|a b|a b c data IH] using list_ind3; try done.
  cbn [b64encode length]. rewrite IH.
  replace (S (S (S (length data))) + 2)%nat with (length data + 2 + 1 * 3)%nat
    by lia.
  rewrite Nat.div_add by done. lia.
Qed.

Lemma b64_chars_ascii (s : str) :
  Forall (fun c => c ∈ B64_PAD :: B64_ALPHABET) s -> is_ascii s = true.
Proof.
  intros Hs. unfold is_ascii. apply forallb_forall. intros c Hc.
  apply list_elem_of_In in Hc. rewrite Forall_forall in Hs.
  assert (Ha : is_ascii (B64_PAD :: B64_ALPHABET) = true) by reflexivity.
  unfold is_ascii in Ha. rewrite forallb_forall in Ha. apply Ha.
  apply list_elem_of_In. by apply Hs.
Qed.

(** X8.  For a file that could be read, [get_image_base64] returns:
    the text it decodes consists of the 64 characters of the alphabet and
    the padding character alone, so [decode] cannot fail, whatever it
    does outside ASCII; the text has four characters for every three
    bytes begun. *)
Theorem logo_base64_total `{Utf8} (data : list N) :
  Forall (fun b => b < 256) data ->
  get_image_base64 (Ok data) = Ok (b64encode data)
  /\ length (b64encode data) = (4 * ((length data + 2) / 3))%nat
  /\ Forall (fun c => c ∈ B64_PAD :: B64_ALPHABET) (b64encode data).
Proof.
  intros Hd. pose proof (b64encode_chars data Hd) as Hc.
  split; [|split; [apply b64encode_length|exact Hc]].
  unfold get_image_base64.
  by rewrite (utf8_decode_ascii _ (b64_chars_ascii _ Hc)).
Qed.

Lemma logo_base64_total_witness :
  get_image_base64 (Ok (lit "Man")) = Ok (lit "TWFu").
Proof.
  refine (proj1 (logo_base64_total (H := ascii_utf8) (lit "Man") _)).
  repeat constructor.
Defined.

(** X9.  [display_header] draws the markup with the encoded logo and
    the title whenever the logo file could be read, and falls back to the
    plain title exactly when it could not: the encoding is no source of
    failure. *)
Theorem header_fallback `{Utf8} (title : str) (file : result (list N)) :
  (forall data, file = Ok data -> Forall (fun b => b < 256) data) ->
  display_header title file
  = match file with
    | Ok data => HeaderMarkdown (header_html (b64encode data) title)
    | Fail _ => HeaderTitle title
    end
  /\ (display_header title file = HeaderTitle title <-> exists e, file = Fail e).
Proof.
  intros Hd.
  assert (Heq : display_header title file
                = match file with
                  | Ok data =>
                      HeaderMarkdown (header_html (b64encode data) title)
                  | Fail _ => HeaderTitle title
                  end).
  { destruct file as [data|e]; [|done]. unfold display_header.
    by rewrite (proj1 (logo_base64_total data (Hd data eq_refl))). }
  split; [done|]. rewrite Heq. destruct file as [data|e].
  - split; [done|]. by intros [e ?].
  - split; [by eexists|done].
Qed.

(** A logo that cannot be opened gives the title; one of three bytes is
    embedded in the [src] of the image. *)
Lemma header_fallback_witness :
  display_header (lit "Repuragent") (Fail 2) = HeaderTitle (lit "Repuragent")
  /\ exists html,
       display_header (lit "Repuragent") (Ok (lit "Man")) = HeaderMarkdown html
       /\ contains html (lit "src=" ++ QUOTE ++ lit "data:image/png;base64,TWFu"
                         ++ QUOTE) = true.
Proof.
  split.
  - refine (proj1 (header_fallback (H := ascii_utf8) (lit "Repuragent")
                     (Fail 2) _)).
    intros data Hd. discriminate Hd.
  - eexists. split.
    + refine (proj1 (header_fallback (H := ascii_utf8) (lit "Repuragent")
                       (Ok (lit "Man")) _)).
      intros data Hd. injection Hd as <-. repeat constructor.
    + reflexivity.
Defined.

(** X10.  The label of a conversation button is the two code points of
    its mark followed by the title, cut to its first 30 code points and
    three dots when it is longer: it never has more than 35 code points,
    and its first 32 are the mark and the first 30 of the title. *)
Theorem conversation_label_shape (is_current : bool) (title : str) :
  length (conversation_label is_current title)
  = (2 + if (30 <? length title)%nat then 33 else length title)%nat
  /\ (length (conversation_label is_current title) <= 35)%nat
  /\ take 32 (conversation_label is_current title)
     = (if is_current then CURRENT_STYLE else OTHER_STYLE) ++ take 30 title.
Proof.
  unfold conversation_label.
  assert (Hs : length (if is_current then CURRENT_STYLE else OTHER_STYLE)
               = 2%nat) by (by destruct is_current).
  destruct (Nat.ltb_spec 30 (length title)) as [Hl|Hl].
  - rewrite !length_app, Hs, length_take. change (length (lit "...")) with 3%nat.
    split; [lia|]. split; [lia|].
    rewrite take_app_ge by lia. rewrite Hs. f_equal.
    change (32 - 2)%nat with 30%nat.
    rewrite take_app_ge; rewrite length_take; try lia.
    replace (30 - 30 `min` length title)%nat with 0%nat by lia.
    by rewrite take_0, app_nil_r.
  - rewrite !length_app, Hs. split; [done|]. split; [lia|].
    rewrite take_app_ge by lia. rewrite Hs. done.
Qed.

(** X11.  [add_episodic_controls] reads [episodic_orchestrator]
    unguarded: without the field it raises [AttributeError] and changes
    nothing.  With the field it returns: a falsy orchestrator leaves the
    state as it is; otherwise [use_episodic_learning] is set to what the
    checkbox gives for its old value ([True] when it was not set), no
    other field is written, the status is asked for once when the
    orchestrator is an object, and what the query raises is caught. *)
Theorem controls_write_the_flag {W} (B : backend W) (checkbox : bool -> bool)
  (st : state W) :
  match session st !! "episodic_orchestrator" with
  | None =>
      add_episodic_controls B checkbox st
      = (Raise (AttributeError "episodic_orchestrator"), st)
  | Some o =>
      fst (add_episodic_controls B checkbox st) = Return tt
      /\ session (snd (add_episodic_controls B checkbox st))
         = (if truthy o
            then <["use_episodic_learning" :=
                     VBool (checkbox
                              (truthy (default (VBool true)
                                         (session st
                                            !! "use_episodic_learning"))))]>
                   (session st)
            else session st)
      /\ calls (snd (add_episodic_controls B checkbox st))
         = calls st ++ (match o with
                        | VObject _ => [CGetSystemStatus]
                        | _ => []
                        end)
  end.
Proof.
  unfold add_episodic_controls, mbind, M_bind, getattr.
  destruct (session st !! "episodic_orchestrator") as [o|] eqn:Ho; [|done].
  destruct (truthy o) eqn:Ht; simpl.
  - unfold try_except, mbind, M_bind, getattr, setattr, session_get. simpl.
    rewrite lookup_insert_ne by done. rewrite Ho.
    destruct o; try discriminate Ht; simpl; rewrite ?app_nil_r; try done.
    unfold extern. simpl.
    destruct (get_system_status B (world st)) as [[[]|e] w]; simpl; done.
  - split; [done|]. split; [done|].
    destruct o; try discriminate Ht; by rewrite app_nil_r.
Qed.

End ComponentsProps.

(** ** The sidebar and [main], continued *)

Module SidebarProps.
Import Segmenter Script App Components Assertions Fixtures ScriptFacts
  InitFacts ControllerFacts.

Section Props.
Context {W : Type} `{CaseMap} (B : backend W).

Lemma st_button_fresh (clicked : option button) (b : button) (d : bool)
  (st : state W) :
  b ∉ widgets st ->
  st_button clicked b d st
  = (Return (negb d && bool_decide (clicked = Some b)),
     State (session st) (world st) (calls st) (widgets st ++ [b])).
Proof. intros Hb. unfold st_button. by rewrite bool_decide_false. Qed.

Lemma st_button_drawn (clicked : option button) (b : button) (d : bool)
  (st : state W) :
  b ∈ widgets st ->
  st_button clicked b d st = (Raise (DuplicateWidgetID b), st).
Proof. intros Hb. unfold st_button. by rewrite bool_decide_true. Qed.

Lemma for_each_app {A} (l1 l2 : list A) (body : A -> M W unit) (st : state W) :
  for_each (l1 ++ l2) body st
  = match for_each l1 body st with
    | (Return _, st') => for_each l2 body st'
    | (Raise e, st') => (Raise e, st')
    end.
Proof.
  revert st. induction l1 as [|x l1 IH]; intros st; [done|].
  cbn [app for_each]. unfold mbind, M_bind.
  destruct (body x st) as [[[]|e] st']; [apply IH|done].
Qed.

(** An entry none of whose buttons is pressed: both are drawn, nothing
    else happens. *)
Lemma conversation_idle (clicked : option button) (app cur : pyval)
  (x : thread_data) (st : state W) :
  session st !! "current_thread_id" = Some cur ->
  BtnThread (thread_id x) ∉ widgets st ->
  BtnDelete (thread_id x) ∉ widgets st ->
  clicked <> Some (BtnDelete (thread_id x)) ->
  (clicked = Some (BtnThread (thread_id x)) ->
   eq_str (thread_id x) cur = true) ->
  display_conversation B clicked app (VThread x) st
  = (Return tt,
     State (session st) (world st) (calls st)
       (widgets st ++ [BtnThread (thread_id x); BtnDelete (thread_id x)])).
Proof.
  intros Hcur Ht Hd Hcd Hct. unfold display_conversation.
  cbn [thread_id_of]. unfold mbind at 1, M_bind at 1. cbn [mret M_ret].
  erewrite run_bind; [|unfold getattr; by rewrite Hcur].
  erewrite run_bind; [|by apply st_button_fresh].
  assert (Hp : negb (eq_str (thread_id x) cur)
               && bool_decide (clicked = Some (BtnThread (thread_id x)))
               = false).
  { destruct (bool_decide_reflect (clicked = Some (BtnThread (thread_id x))))
      as [Hc|Hc]; [|by rewrite andb_false_r].
    by rewrite (Hct Hc). }
  rewrite Hp. cbn [when]. unfold mbind at 1, M_bind at 1. cbn [mret M_ret].
  erewrite run_bind.
  2:{ apply st_button_fresh. cbn [widgets]. apply not_elem_of_app.
      split; [done|]. apply not_elem_of_cons. split; [done|].
      apply not_elem_of_nil. }
  cbn [negb andb]. rewrite bool_decide_false by done. cbn [when].
  cbn [mret M_ret session world calls widgets]. by rewrite <- app_assoc.
Qed.

Lemma elem_of_buttons_of (b : button) (ths : list thread_data) :
  b ∈ buttons_of ths ->
  exists x, x ∈ ths
            /\ (b = BtnThread (thread_id x) \/ b = BtnDelete (thread_id x)).
Proof.
  unfold buttons_of. intros Hb. apply list_elem_of_In, in_flat_map in Hb.
  destruct Hb as (x & Hx & Hb). exists x. split; [by apply list_elem_of_In|].
  destruct Hb as [<-|[<-|[]]]; [by left|by right].
Qed.

Lemma loop_idle (clicked : option button) (app cur : pyval)
  (ths : list thread_data) (st : state W) :
  session st !! "current_thread_id" = Some cur ->
  NoDup (map thread_id ths) ->
  (forall x, x ∈ ths ->
     (BtnThread (thread_id x) ∉ widgets st)
     /\ (BtnDelete (thread_id x) ∉ widgets st)) ->
  idle_for clicked cur ths ->
  for_each (map VThread ths) (display_conversation B clicked app) st
  = (Return tt,
     State (session st) (world st) (calls st) (widgets st ++ buttons_of ths)).
Proof.
  revert st. induction ths as [|x ths IH]; intros st Hcur Hnd Hfresh Hidle.
  { cbn. rewrite app_nil_r. by destruct st. }
  cbn [map] in Hnd. apply NoDup_cons in Hnd as [Hx Hnd].
  destruct (Hfresh x) as [Ht Hd]; [by left|].
  destruct (Hidle x) as [Hcd Hct]; [by left|].
  cbn [map for_each].
  erewrite run_bind; [|by apply (conversation_idle clicked app cur)].
  rewrite IH; try done.
  - cbn [session world calls widgets buttons_of flat_map].
    by rewrite <- app_assoc.
  - intros y Hy. cbn [widgets].
    assert (Hne : thread_id y <> thread_id x).
    { intros Heq. apply Hx. rewrite <- Heq.
      apply list_elem_of_In, in_map, list_elem_of_In, Hy. }
    destruct (Hfresh y) as [? ?]; [by right|].
    split; apply not_elem_of_app; (split; [done|]);
      apply not_elem_of_cons; (split; [congruence|]);
      apply not_elem_of_cons; (split; [congruence|apply not_elem_of_nil]).
  - intros y Hy. apply Hidle. by right.
Qed.


(** X12.  Unless Extract Learning was clicked,
    [_display_episodic_learning_section] returns, whatever the session
    holds and whatever [get_system_status] does: the button is drawn, the
    session is left alone, and the status is asked for once exactly when
    [episodic_orchestrator] is set to an object; a missing field, a falsy
    value and an exception of the query are all passed over. *)
Theorem episodic_section_total (clicked : option button) (st : state W) :
  clicked <> Some BtnExtract ->
  BtnExtract ∉ widgets st ->
  display_episodic_learning_section B clicked st
  = (Return tt,
     match session st !! "episodic_orchestrator" with
     | Some (VObject _) =>
         State (session st) (snd (get_system_status B (world st)))
           (calls st ++ [CGetSystemStatus]) (widgets st ++ [BtnExtract])
     | _ =>
         State (session st) (world st) (calls st) (widgets st ++ [BtnExtract])
     end).
Proof.
  intros Hc Hw. unfold display_episodic_learning_section.
  erewrite run_bind; [|by apply st_button_fresh].
  rewrite bool_decide_false by done. cbn [negb andb when].
  unfold mbind, M_bind, mret, M_ret, has_key, getattr, try_pass, extern.
  cbn [session world calls widgets].
  destruct (session st !! "episodic_orchestrator") as [o|] eqn:Ho.
  - rewrite bool_decide_true by (by eexists). cbn [when session]. rewrite Ho.
    destruct o as [|b|s|l|d|ids|td|m|h]; cbn [truthy when]; try done.
    + by destruct b.
    + by destruct (negb _).
    + by destruct l.
    + by destruct d.
    + by destruct (negb _).
    + cbn [world calls session widgets].
      by destruct (get_system_status B (world st)) as [[[]|e] w].
  - rewrite bool_decide_false; [done|]. by intros [? ?].
Qed.

Lemma main_to_list (st : state W) :
  initialised (session st) ->
  exists st2,
    session st2 = session st
    /\ widgets st2 = [BtnExtract; BtnNewTask]
    /\ (exists cs, calls st2 = calls st ++ cs
                   /\ Forall (fun c => is_transition_call c = false) cs)
    /\ forall clicked,
         clicked <> Some BtnExtract -> clicked <> Some BtnNewTask ->
         main B clicked st
         = match display_conversation_list B clicked (app_of B st) st2 with
           | (Return _, st') => show_messages st'
           | (Raise e, st') => (Raise e, st')
           end.
Proof.
  intros Hi.
  set (st1 := State (session st) (world st) (calls st) []).
  assert (Hex : exists w cs,
            Forall (fun c => is_transition_call c = false) cs
            /\ try_except (extern (CCreateApp false) (create_app B false))
                 (fun _ => log CLogWarning;; mret VNone) st1
               = (Return (app_of B st),
                  State (session st) w (calls st ++ cs) [])).
  { unfold try_except, extern, log, mbind, M_bind, mret, M_ret, app_of. cbn.
    destruct (create_app B false (world st)) as [[a|e] w]; cbn.
    - exists w, [CCreateApp false]. split; [by repeat constructor|done].
    - exists w, [CCreateApp false; CLogWarning].
      split; [by repeat constructor|]. by rewrite <- app_assoc. }
  destruct Hex as (w & cs & Hcs & Hrun).
  set (st1' := State (session st) w (calls st ++ cs) []).
  set (e := match session st1' !! "episodic_orchestrator" with
            | Some (VObject _) =>
                State (session st1') (snd (get_system_status B (world st1')))
                  (calls st1' ++ [CGetSystemStatus])
                  (widgets st1' ++ [BtnExtract])
            | _ =>
                State (session st1') (world st1') (calls st1')
                  (widgets st1' ++ [BtnExtract])
            end).
  assert (He : session e = session st /\ widgets e = [BtnExtract]
               /\ exists cs', calls e = calls st ++ cs'
                    /\ Forall (fun c => is_transition_call c = false) cs').
  { unfold e, st1'. cbn [session world calls widgets].
    destruct (session st !! "episodic_orchestrator") as [[]|];
      (split; [done|split; [done|]]); cbn [calls];
      try (by exists cs).
    exists (cs ++ [CGetSystemStatus]). rewrite <- app_assoc. split; [done|].
    apply Forall_app. by split; [|repeat constructor]. }
  destruct He as (Hes & Hew & Hec).
  exists (State (session e) (world e) (calls e) [BtnExtract; BtnNewTask]).
  split; [done|]. split; [done|]. split; [done|].
  intros clicked Hce Hcn. unfold main.
  erewrite run_bind by reflexivity.
  erewrite run_bind; [|by apply init_noop].
  erewrite run_bind by exact Hrun.
  unfold display_sidebar.
  unfold mbind at 1, M_bind at 1. unfold mbind at 1, M_bind at 1.
  fold st1'.
  rewrite (episodic_section_total clicked st1' Hce (not_elem_of_nil _)).
  fold e. erewrite run_bind.
  2:{ apply st_button_fresh. rewrite Hew. apply not_elem_of_cons.
      split; [done|apply not_elem_of_nil]. }
  rewrite bool_decide_false by done. cbn [negb andb when]. by rewrite Hew.
Qed.

Lemma items_pure (v : pyval) :
  exists r, forall st : state W, items v st = (r, st).
Proof. destruct v; by eexists. Qed.

Lemma messages_pure (l : list pyval) :
  exists r, forall st : state W, map_M message_of l st = (r, st).
Proof.
  induction l as [|x l [r IH]]; [by eexists|].
  assert (Hx : exists rx, forall st : state W, message_of x st = (rx, st))
    by (destruct x; by eexists).
  destruct Hx as [[m|e] Hx].
  - destruct r as [ms|e].
    + exists (Return (m :: ms)). intros st. cbn [map_M].
      unfold mbind, M_bind. by rewrite Hx, IH.
    + exists (Raise e). intros st. cbn [map_M].
      unfold mbind, M_bind. by rewrite Hx, IH.
  - exists (Raise e). intros st. cbn [map_M].
    unfold mbind, M_bind. by rewrite Hx.
Qed.

Lemma show_messages_session (st st' : state W) :
  session st = session st' ->
  fst (show_messages st) = fst (show_messages st').
Proof.
  intros Hs. unfold show_messages, mbind, M_bind, getattr. rewrite Hs.
  destruct (session st' !! "messages") as [v|]; [|done].
  destruct (items_pure v) as [[l|e] Hv]; rewrite !Hv; [|done].
  destruct (messages_pure l) as [[ms|e] Hl]; by rewrite !Hl.
Qed.

Lemma show_messages_list (ms : list message) (st : state W) :
  session st !! "messages" = Some (VList (map VMessage ms)) ->
  show_messages st = (Return (display_chat_messages ms), st).
Proof.
  intros Hm. unfold show_messages.
  erewrite run_bind; [|unfold getattr; by rewrite Hm].
  erewrite run_bind by reflexivity.
  assert (Hmap : map_M (message_of (W := W)) (map VMessage ms) st
                 = (Return ms, st)).
  { induction ms as [|m ms IH] in |- *; [done|].
    cbn [map map_M message_of]. unfold mbind at 1, M_bind at 1.
    cbn [mret M_ret]. by erewrite run_bind by exact IH. }
  by erewrite run_bind by exact Hmap.
Qed.

(** A run in which no button is pressed. *)
Lemma main_idle (st : state W) (tds : list thread_data) (cur : pyval) :
  initialised (session st) ->
  session st !! "thread_ids" = Some (VList (map VThread tds)) ->
  session st !! "current_thread_id" = Some cur ->
  NoDup (map thread_id tds) ->
  exists st2,
    session st2 = session st
    /\ widgets st2 = [BtnExtract; BtnNewTask] ++ buttons_of (rev tds)
    /\ (exists cs, calls st2 = calls st ++ cs
                   /\ Forall (fun c => is_transition_call c = false) cs)
    /\ forall clicked,
         clicked <> Some BtnExtract -> clicked <> Some BtnNewTask ->
         idle_for clicked cur tds ->
         main B clicked st = (fst (show_messages st), st2).
Proof.
  intros Hi Hl Hcur Hnd.
  destruct (main_to_list st Hi) as (st2 & Hs2 & Hw2 & Hc2 & Hmain).
  exists (State (session st2) (world st2) (calls st2)
            (widgets st2 ++ buttons_of (rev tds))).
  cbn [session widgets calls]. split; [done|]. split; [by rewrite Hw2|].
  split; [done|]. intros clicked Hce Hcn Hidle.
  rewrite (Hmain clicked Hce Hcn). unfold display_conversation_list.
  erewrite run_bind; [|unfold getattr; by rewrite Hs2, Hl].
  assert (Hloop : when (truthy (VList (map VThread tds)))
                    (threads ← reversed (VList (map VThread tds));
                     for_each threads
                       (display_conversation B clicked (app_of B st))) st2
                  = (Return tt,
                     State (session st2) (world st2) (calls st2)
                       (widgets st2 ++ buttons_of (rev tds)))).
  { destruct tds as [|td tds'].
    { cbn. rewrite app_nil_r. by destruct st2. }
    set (tds := td :: tds') in *. cbn [truthy map when tds].
    cbn [reversed items]. unfold mbind at 1, M_bind at 1.
    unfold mbind at 1, M_bind at 1. cbn [mret M_ret].
    change (VThread td :: map VThread tds') with (map VThread tds).
    rewrite <- map_rev.
    rewrite (loop_idle clicked (app_of B st) cur (rev tds) st2); try done.
    - by rewrite Hs2.
    - rewrite map_rev. apply NoDup_ListNoDup, List.NoDup_rev.
      by apply NoDup_ListNoDup.
    - intros x _. rewrite Hw2.
      split; apply not_elem_of_cons; (split; [done|]);
        apply not_elem_of_cons; (split; [done|apply not_elem_of_nil]).
    - intros x Hx. apply Hidle. apply list_elem_of_In, in_rev.
      by apply list_elem_of_In. }
  rewrite Hloop. pose proof (stateless_show_messages (H := H) (W := W)) as Hsl.
  set (st3 := State _ _ _ _).
  rewrite (surjective_pairing (show_messages st3)), (Hsl st3).
  f_equal. apply show_messages_session. by rewrite <- Hs2.
Qed.

Lemma idle_other_thread (tid : string) (cur : pyval)
  (tds : list thread_data) :
  cur = VStr tid \/ (tid ∉ map thread_id tds) ->
  idle_for (Some (BtnThread tid)) cur tds.
Proof.
  intros Hc x Hx. split; [done|]. intros [= Heq].
  destruct Hc as [->|Hc].
  - cbn. rewrite Heq. apply String.eqb_refl.
  - destruct Hc. rewrite Heq.
    apply list_elem_of_In, in_map, list_elem_of_In, Hx.
Qed.

(** X13.  A run without a click on an initialised session whose roster
    is a list of threads with distinct ids ends as
    [display_chat_messages(st.session_state.messages)] does on that
    session (with the widgets of the messages when [messages] is a list of
    messages), leaves the session as it was, creates and loads no
    conversation, and draws Extract Learning, New Task and then the two
    buttons of every roster entry, the most recent entry first. *)
Theorem rerender_draws_roster (st : state W) (tds : list thread_data)
  (ms : list message) :
  initialised (session st) ->
  session st !! "thread_ids" = Some (VList (map VThread tds)) ->
  NoDup (map thread_id tds) ->
  fst (main B None st) = fst (show_messages st)
  /\ (session st !! "messages" = Some (VList (map VMessage ms)) ->
      fst (main B None st) = Return (display_chat_messages ms))
  /\ session (snd (main B None st)) = session st
  /\ widgets (snd (main B None st))
     = [BtnExtract; BtnNewTask] ++ buttons_of (rev tds)
  /\ exists cs, calls (snd (main B None st)) = calls st ++ cs
                /\ Forall (fun c => is_transition_call c = false) cs.
Proof.
  intros Hi Hl Hnd.
  destruct (initialised_lookup (session st) "current_thread_id" Hi)
    as [cur Hcur]; [elem_dec|].
  destruct (main_idle st tds cur Hi Hl Hcur Hnd)
    as (st2 & Hs2 & Hw2 & Hc2 & Hmain).
  rewrite (Hmain None); [|done|done|by intros x Hx].
  cbn [fst snd]. split; [done|]. split; [|done].
  intros Hm. by rewrite (show_messages_list ms st Hm).
Qed.

(** X14.  The button of the current thread is disabled and a thread
    outside the roster has no button: a click attributed to either is a
    run without a click. *)
Theorem select_current_is_rerender (st : state W) (tds : list thread_data)
  (cur : pyval) (tid : string) :
  initialised (session st) ->
  session st !! "thread_ids" = Some (VList (map VThread tds)) ->
  NoDup (map thread_id tds) ->
  session st !! "current_thread_id" = Some cur ->
  cur = VStr tid \/ (tid ∉ map thread_id tds) ->
  main B (Some (BtnThread tid)) st = main B None st.
Proof.
  intros Hi Hl Hnd Hcur Hc.
  destruct (main_idle st tds cur Hi Hl Hcur Hnd)
    as (st2 & Hs2 & Hw2 & Hc2 & Hmain).
  rewrite (Hmain None); [|done|done|by intros x Hx].
  rewrite (Hmain (Some (BtnThread tid))); [done..|].
  by apply idle_other_thread.
Qed.

(** The entry that is clicked: its history is loaded, and the run ends
    in [st.rerun()] or in the exception of the load. *)
Lemma conversation_select (app cur : pyval) (x : thread_data)
  (st : state W) :
  session st !! "current_thread_id" = Some cur ->
  BtnThread (thread_id x) ∉ widgets st ->
  eq_str (thread_id x) cur = false ->
  display_conversation B (Some (BtnThread (thread_id x))) app (VThread x) st
  = (match fst (load_conversation B (thread_id x) app (session st)
                  (world st)) with
     | Ok _ => Raise Rerun
     | Fail e => Raise (Exception e)
     end,
     State (fst (snd (load_conversation B (thread_id x) app (session st)
                        (world st))))
       (snd (snd (load_conversation B (thread_id x) app (session st)
                    (world st))))
       (calls st ++ [CLoadConversation (thread_id x)])
       (widgets st ++ [BtnThread (thread_id x)])).
Proof.
  intros Hcur Ht Hne. unfold display_conversation.
  cbn [thread_id_of]. unfold mbind at 1, M_bind at 1. cbn [mret M_ret].
  erewrite run_bind; [|unfold getattr; by rewrite Hcur].
  erewrite run_bind; [|by apply st_button_fresh].
  rewrite Hne, bool_decide_true by done. cbn [negb andb when].
  unfold mbind, M_bind, call_load_conversation, st_rerun, raise.
  cbn [session world calls widgets].
  by destruct (load_conversation B (thread_id x) app (session st) (world st))
    as [[[]|e] [s w]].
Qed.

Lemma select_run (st : state W) (tds : list thread_data)
  (cur : pyval) (tid : string) :
  initialised (session st) ->
  session st !! "thread_ids" = Some (VList (map VThread tds)) ->
  NoDup (map thread_id tds) ->
  tid ∈ map thread_id tds ->
  session st !! "current_thread_id" = Some cur ->
  eq_str tid cur = false ->
  exists w cs ws,
    main B (Some (BtnThread tid)) st
    = (match fst (load_conversation B tid (app_of B st) (session st) w) with
       | Ok _ => Raise Rerun
       | Fail e => Raise (Exception e)
       end,
       State (fst (snd (load_conversation B tid (app_of B st) (session st) w)))
         (snd (snd (load_conversation B tid (app_of B st) (session st) w)))
         cs ws).
Proof.
  intros Hi Hl Hnd Hin Hcur Hne.
  destruct (main_to_list st Hi) as (st2 & Hs2 & Hw2 & Hc2 & Hmain).
  exists (world st2).
  rewrite (Hmain (Some (BtnThread tid))) by done.
  unfold display_conversation_list.
  erewrite run_bind; [|unfold getattr; by rewrite Hs2, Hl].
  assert (Ht : truthy (VList (map VThread tds)) = true).
  { destruct tds; [by apply elem_of_nil in Hin|done]. }
  rewrite Ht. cbn [when reversed items].
  unfold mbind at 1, M_bind at 1. unfold mbind at 1, M_bind at 1.
  cbn [mret M_ret]. rewrite <- map_rev.
  assert (Hx : exists x, x ∈ rev tds /\ thread_id x = tid).
  { apply list_elem_of_In, in_map_iff in Hin as (x & Hx & Hin).
    exists x. split; [|done]. apply list_elem_of_In.
    by apply in_rev in Hin. }
  destruct Hx as (x & Hx & Hxt).
  apply list_elem_of_split in Hx as (pre & post & Hsplit).
  assert (Hnd' : NoDup (map thread_id (pre ++ x :: post))).
  { rewrite <- Hsplit, map_rev. apply NoDup_ListNoDup, List.NoDup_rev.
    by apply NoDup_ListNoDup. }
  rewrite map_app in Hnd'. apply NoDup_app in Hnd' as (Hndp & Hdisj & _).
  assert (Hpre : tid ∉ map thread_id pre).
  { intros Hp. apply (Hdisj tid Hp). rewrite <- Hxt. by left. }
  rewrite Hsplit, map_app, for_each_app.
  rewrite (loop_idle (Some (BtnThread tid)) (app_of B st) cur pre st2);
    try done.
  2:{ by rewrite Hs2. }
  2:{ intros y _. rewrite Hw2.
      split; apply not_elem_of_cons; (split; [done|]);
        apply not_elem_of_cons; (split; [done|apply not_elem_of_nil]). }
  2:{ apply idle_other_thread. by right. }
  cbn [map for_each]. unfold mbind at 1, M_bind at 1. subst tid.
  rewrite (conversation_select (app_of B st) cur x); cbn [session widgets];
    [..|done].
  2:{ by rewrite Hs2. }
  2:{ rewrite Hw2. intros Hb. apply elem_of_app in Hb as [Hb|Hb].
      - by repeat (apply elem_of_cons in Hb as [Hb|Hb]; [done|]);
          apply elem_of_nil in Hb.
      - apply elem_of_buttons_of in Hb as (y & Hy & [Hb|Hb]); [|done].
        injection Hb as Hb. apply Hpre. rewrite Hb.
        apply list_elem_of_In, in_map, list_elem_of_In, Hy. }
  cbn [world]. rewrite Hs2. do 2 eexists.
  by destruct (fst (load_conversation B (thread_id x) (app_of B st)
                      (session st) (world st2))).
Qed.

(** X15.  A click on the button of a roster entry that is not current
    calls [load_conversation] with the app of this run ([None] when
    [create_app] raised) on the session as it was.  The call is not
    guarded: the run ends in [st.rerun()] when it returns and in its
    exception when it raises, in which case no second run follows; either
    way the session and the collaborators' state are what the call left. *)
Theorem select_outcome (st : state W) (tds : list thread_data)
  (cur : pyval) (tid : string) :
  initialised (session st) ->
  session st !! "thread_ids" = Some (VList (map VThread tds)) ->
  NoDup (map thread_id tds) ->
  tid ∈ map thread_id tds ->
  session st !! "current_thread_id" = Some cur ->
  eq_str tid cur = false ->
  exists w,
    let res := load_conversation B tid (app_of B st) (session st) w in
    fst (main B (Some (BtnThread tid)) st)
    = match fst res with
      | Ok _ => Raise Rerun
      | Fail e => Raise (Exception e)
      end
    /\ session (snd (main B (Some (BtnThread tid)) st)) = fst (snd res)
    /\ world (snd (main B (Some (BtnThread tid)) st)) = snd (snd res)
    /\ (forall e, fst res = Fail e ->
        interact B (Some (BtnThread tid)) st
        = main B (Some (BtnThread tid)) st).
Proof.
  intros Hi Hl Hnd Hin Hcur Hne.
  destruct (select_run st tds cur tid Hi Hl Hnd Hin Hcur Hne)
    as (w & cs & ws & Hrun).
  exists w. cbn zeta. unfold interact. rewrite Hrun. cbn [fst snd session world].
  repeat split. intros e He. by rewrite He.
Qed.

Lemma first_repeat (l : list thread_data) :
  ~ NoDup (map thread_id l) ->
  exists pre x post,
    l = pre ++ x :: post
    /\ NoDup (map thread_id pre)
    /\ thread_id x ∈ map thread_id pre.
Proof.
  induction l as [|a l IH] using rev_ind; intros Hnd.
  { destruct Hnd. constructor. }
  destruct (decide (NoDup (map thread_id l))) as [Hl|Hl].
  - exists l, a, []. split; [done|]. split; [done|].
    destruct (decide (thread_id a ∈ map thread_id l)) as [Hin|Hout]; [done|].
    destruct Hnd. rewrite map_app. apply NoDup_app. split; [done|].
    split; [|apply NoDup_singleton].
    intros y Hy Hy'. apply list_elem_of_singleton in Hy'. by subst y.
  - destruct (IH Hl) as (pre & x & post & -> & Hpre & Hx).
    exists pre, x, (post ++ [a]). by rewrite <- app_assoc.
Qed.

(** X16.  A roster that holds a thread id twice cannot be drawn: the
    run without a click ends in the duplicate-key error of [st.button]
    for the conversation button of a repeated id; the session is
    unchanged. *)
Theorem repeated_id_breaks_sidebar (st : state W) (tds : list thread_data) :
  initialised (session st) ->
  session st !! "thread_ids" = Some (VList (map VThread tds)) ->
  ~ NoDup (map thread_id tds) ->
  exists tid,
    tid ∈ map thread_id tds
    /\ fst (main B None st) = Raise (DuplicateWidgetID (BtnThread tid))
    /\ session (snd (main B None st)) = session st.
Proof.
  intros Hi Hl Hnd.
  destruct (initialised_lookup (session st) "current_thread_id" Hi)
    as [cur Hcur]; [elem_dec|].
  destruct (main_to_list st Hi) as (st2 & Hs2 & Hw2 & Hc2 & Hmain).
  assert (Hnd' : ~ NoDup (map thread_id (rev tds))).
  { intros Hr. apply Hnd. rewrite map_rev in Hr.
    apply NoDup_ListNoDup, List.NoDup_rev in Hr. rewrite rev_involutive in Hr.
    by apply NoDup_ListNoDup. }
  destruct (first_repeat _ Hnd') as (pre & x & post & Hsplit & Hpre & Hx).
  exists (thread_id x).
  assert (Hrun : exists st3,
            session st3 = session st
            /\ main B None st
               = (Raise (DuplicateWidgetID (BtnThread (thread_id x))), st3)).
  { rewrite (Hmain None) by done. unfold display_conversation_list.
    erewrite run_bind; [|unfold getattr; by rewrite Hs2, Hl].
    assert (Ht : truthy (VList (map VThread tds)) = true).
    { destruct tds; [|done]. destruct Hnd. constructor. }
    rewrite Ht. cbn [when reversed items].
    unfold mbind at 1, M_bind at 1. unfold mbind at 1, M_bind at 1.
    cbn [mret M_ret]. rewrite <- map_rev, Hsplit, map_app, for_each_app.
    rewrite (loop_idle None (app_of B st) cur pre st2); try done.
    2:{ by rewrite Hs2. }
    2:{ intros y _. rewrite Hw2.
        split; apply not_elem_of_cons; (split; [done|]);
          apply not_elem_of_cons; (split; [done|apply not_elem_of_nil]). }
    cbn [map for_each]. unfold mbind at 1, M_bind at 1.
    unfold display_conversation. cbn [thread_id_of].
    unfold mbind at 1, M_bind at 1. cbn [mret M_ret].
    erewrite run_bind; [|unfold getattr; cbn [session]; by rewrite Hs2, Hcur].
    unfold mbind at 1, M_bind at 1. rewrite st_button_drawn.
    - eexists. split; [|reflexivity]. done.
    - cbn [widgets]. apply elem_of_app. right.
      apply list_elem_of_In, in_map_iff in Hx as (y & Hy & Hin).
      unfold buttons_of. apply list_elem_of_In, in_flat_map.
      exists y. split; [done|]. left. by rewrite Hy. }
  destruct Hrun as (st3 & Hs3 & Hrun). rewrite Hrun. cbn [fst snd].
  split; [|done].
  apply list_elem_of_In, in_map, in_rev. rewrite Hsplit.
  apply in_or_app. right. by left.
Qed.

(** X17.  A click on Extract Learning only reruns the script: the run
    it starts ends in [st.rerun()] with that button alone drawn, having
    called [create_app] (and logged a warning when that raised) and
    nothing else, in particular not the status query; the session is the
    same after the interaction. *)
Theorem extract_only_reruns (st : state W) :
  initialised (session st) ->
  main B (Some BtnExtract) st
  = (Raise Rerun,
     State (session st) (snd (create_app B false (world st)))
       (calls st ++ CCreateApp false
          :: match fst (create_app B false (world st)) with
             | Ok _ => []
             | Fail _ => [CLogWarning]
             end)
       [BtnExtract])
  /\ session (snd (interact B (Some BtnExtract) st)) = session st.
Proof.
  intros Hi. split; [|by apply interact_quiet].
  unfold main. erewrite run_bind by reflexivity.
  erewrite run_bind; [|by apply init_noop].
  unfold try_except, extern, log, display_sidebar,
    display_episodic_learning_section, st_button, st_rerun, raise,
    mbind, M_bind, mret, M_ret.
  cbn [session world calls widgets].
  destruct (create_app B false (world st)) as [[a|e] w];
    cbn [is_Exception fst snd session world calls widgets];
    rewrite bool_decide_false by apply not_elem_of_nil;
    rewrite bool_decide_true by done; cbn [negb andb when app];
    [done|by rewrite <- app_assoc].
Qed.

End Props.

Lemma ready_session_initialised : initialised (ready_session false).
Proof. unfold initialised, init_fields. repeat constructor; by eexists. Qed.

Lemma episodic_section_total_witness :
  display_episodic_learning_section store_backend None (ready false)
  = (Return tt,
     State (ready_session false) two_threads [CGetSystemStatus] [BtnExtract]).
Proof.
  refine (episodic_section_total store_backend None (ready false) _ _).
  - discriminate.
  - apply not_elem_of_nil.
Defined.

(** The rerender of the session with two threads: [t2], the most recent,
    comes first. *)
Lemma rerender_draws_roster_witness :
  fst (main store_backend None (ready false))
  = Return [ChatMessage "assistant" [Markdown (lit "Welcome")]]
  /\ widgets (snd (main store_backend None (ready false)))
     = [BtnExtract; BtnNewTask; BtnThread "t2"; BtnDelete "t2";
        BtnThread "t1"; BtnDelete "t1"].
Proof.
  pose proof (rerender_draws_roster (H := ascii_case) store_backend
                (ready false) [t1; t2] [welcome] ready_session_initialised
                eq_refl ltac:(elem_dec)) as (_ & H2 & _ & H4 & _).
  split; [exact (H2 eq_refl)|exact H4].
Defined.

(** [t2] is current: a click on its button does what no click does. *)
Lemma select_current_is_rerender_witness :
  main store_backend (Some (BtnThread "t2")) (ready false)
  = main store_backend None (ready false).
Proof.
  refine (select_current_is_rerender (H := ascii_case) store_backend
            (ready false) [t1; t2] (VStr "t2") "t2" _ eq_refl _ eq_refl
            (or_introl eq_refl)).
  - apply ready_session_initialised.
  - elem_dec.
Defined.

Lemma select_outcome_witness :
  exists w,
    fst (main store_backend (Some (BtnThread "t1")) (ready false))
    = match fst (store_load_conversation "t1" (VObject 2)
                   (ready_session false) w) with
      | Ok _ => Raise Rerun
      | Fail e => Raise (Exception e)
      end.
Proof.
  destruct (select_outcome (H := ascii_case) store_backend (ready false)
              [t1; t2] (VStr "t2") "t1" ready_session_initialised eq_refl
              ltac:(elem_dec) ltac:(elem_dec) eq_refl eq_refl)
    as (w & H1 & _).
  exists w. exact H1.
Defined.

(** The roster [t1; t1]. *)
Lemma repeated_id_breaks_sidebar_witness :
  fst (main store_backend None
         (State (<["thread_ids" := VList [VThread t1; VThread t1]]>
                   (ready_session false))
            two_threads [] []))
  = Raise (DuplicateWidgetID (BtnThread "t1")).
Proof.
  destruct (repeated_id_breaks_sidebar (H := ascii_case) store_backend
              (State (<["thread_ids" := VList [VThread t1; VThread t1]]>
                        (ready_session false))
                 two_threads [] [])
              [t1; t1])
    as (tid & H1 & H2 & _).
  - unfold initialised, init_fields. repeat constructor; by eexists.
  - reflexivity.
  - intros Hnd. apply NoDup_cons in Hnd as [Hn _]. apply Hn. by left.
  - cbn [map thread_id t1] in H1.
    repeat (apply elem_of_cons in H1 as [->|H1]); try exact H2.
    by apply elem_of_nil in H1.
Defined.

Lemma extract_only_reruns_witness :
  main store_backend (Some BtnExtract) (ready false)
  = (Raise Rerun,
     State (ready_session false) two_threads [CCreateApp false] [BtnExtract]).
Proof.
  exact (proj1 (extract_only_reruns (H := ascii_case) store_backend
                  (ready false) ready_session_initialised)).
Defined.

End SidebarProps.
